(** * Gp2Dcp: the reduction of log-log convex programs to convex programs

    A shallow embedding of
    - [cvxpy/reductions/gp2dcp/atom_canonicalizers/__init__.py]
      (the table [CANON_METHODS] and the class [DgpCanonMethods]), and
    - [cvxpy/reductions/gp2dcp/gp2dcp.py] (the class [Gp2Dcp]).

    Python objects that the code mutates are kept in an explicit store and
    the code is written in a state-and-exception monad: a raised exception
    keeps every mutation made before it. *)

From stdpp Require Import gmap strings list fin_maps functions.

(** ** Expression node kinds

    The keys of the rewrite table are Python classes.  The classes that
    [__init__.py] imports are listed by name ([Variable_] is the class
    [Variable]); [OtherAtom] stands for every other class (sum_smallest,
    minimum, cumsum, ...). *)
Inductive atom_kind :=
| AddExpression | Constant | DivExpression | exp | eye_minus_inv | geo_mean
| log | MulExpression | multiply | one_minus | pnorm | power | trace
| Variable_ | maximum | sum_largest
| OtherAtom (name : string).

#[global] Instance atom_kind_eq_dec : EqDecision atom_kind.
Proof. solve_decision. Defined.

Definition atom_kind_code (k : atom_kind) : nat + string :=
  match k with
  | AddExpression => inl 0 | Constant => inl 1 | DivExpression => inl 2
  | exp => inl 3 | eye_minus_inv => inl 4 | geo_mean => inl 5 | log => inl 6
  | MulExpression => inl 7 | multiply => inl 8 | one_minus => inl 9
  | pnorm => inl 10 | power => inl 11 | trace => inl 12 | Variable_ => inl 13
  | maximum => inl 14 | sum_largest => inl 15
  | OtherAtom name => inr name
  end.

Definition atom_kind_of_code (c : nat + string) : atom_kind :=
  match c with
  | inl 0 => AddExpression | inl 1 => Constant | inl 2 => DivExpression
  | inl 3 => exp | inl 4 => eye_minus_inv | inl 5 => geo_mean | inl 6 => log
  | inl 7 => MulExpression | inl 8 => multiply | inl 9 => one_minus
  | inl 10 => pnorm | inl 11 => power | inl 12 => trace | inl 13 => Variable_
  | inl 14 => maximum | inl _ => sum_largest
  | inr name => OtherAtom name
  end.

#[global] Instance atom_kind_countable : Countable atom_kind.
Proof.
  apply (inj_countable' atom_kind_code atom_kind_of_code).
  intros []; reflexivity.
Defined.

(** ** Exceptions *)
Inductive exn :=
| ValueError (msg : string)
| KeyError (key : atom_kind)
| AttributeError (attribute : string)
| TypeError (msg : string)
| OtherError (msg : string).

(** ** The state-and-exception monad *)
Definition py (S A : Type) : Type := S → (exn + A) * S.

#[global] Instance py_ret {S} : MRet (py S) := λ A a s, (inr a, s).
#[global] Instance py_bind {S} : MBind (py S) := λ A B f m s,
  match m s with
  | (inr a, s') => f a s'
  | (inl e, s') => (inl e, s')
  end.

Definition raise {S A} (e : exn) : py S A := λ s, (inl e, s).
Definition get_state {S} : py S S := λ s, (inr s, s).

(** [for x in l: body(x)] *)
Fixpoint for_each {S A} (l : list A) (body : A → py S unit) : py S unit :=
  match l with
  | [] => mret tt
  | x :: l' => body x ;; for_each l' body
  end.

(** ** Expressions

    Every cvxpy expression object has an identifier ([expr.id]), a shape
    and an argument list; [expr_ref] is the identity of the Python object
    (two objects are the same object exactly when they have the same
    reference) and [expr_attributes] lists the attributes a leaf was
    created with ([nonneg], [pos], ...). *)
#[warnings="-register-all"]
Inductive Expr := mkExpr {
  expr_ref : positive;
  expr_type : atom_kind;
  expr_id : nat;
  expr_shape : list nat;
  expr_attributes : list string;
  expr_args : list Expr
}.

(** Modelled from the spec: the class [Variable] is not among the sources.
    [Variable(shape, var_id=i)] creates a new leaf of kind variable with
    that shape and identifier and no attribute (no positivity); [r] is the
    reference of the new object. *)
Definition new_Variable (r : positive) (shape : list nat) (var_id : nat) : Expr :=
  mkExpr r Variable_ var_id shape [] [].

(** [Expression.__hash__] and [Expression.__eq__], by which a Python dict
    files an expression used as a key, are not among the sources: the key
    is a parameter.  [dict_key e] is the key under which a dict files [e]:
    two expressions are the same dict key exactly when their [dict_key]
    agree.  In the spec's data model a variable is identified by its
    identifier ([dict_key := expr_id]); with Python's default hashing it
    is identified by the object ([dict_key] read off [expr_ref]). *)
Class Expr_key := dict_key : Expr → nat.

(** ** Constraints

    A constraint object relates [_lhs] and [_rhs]; [args] is its argument
    list (by default the single expression lhs - rhs) and [_old_args] is
    the attribute that [Gp2Dcp.apply] adds and deletes ([None]: the object
    has no such attribute). *)
Inductive relop := op_eq | op_leq.

Record Constraint := {
  constr_op : relop;
  args : list Expr;
  _old_args : option (list Expr);
  _lhs : Expr;
  _rhs : Expr
}.

(** A constraint object created by a rewrite (an extra constraint of a
    rule, or the rewritten copy of a constraint): its relation and its
    operands. *)
Record NewConstraint := {
  new_op : relop;
  new_args : list Expr
}.

(** * atom_canonicalizers/__init__.py *)

(** The values of the table, by the names lines 36-54 give them: the
    canonicalizers, the entries read from the eliminate_pwl table
    ([PWL_METHODS key] is [PWL_METHODS[key]]), and [None]. *)
Inductive canon_value :=
| add_canon | constant_canon | div_canon | exp_canon | eye_minus_inv_canon
| geo_mean_canon | log_canon | mulexpression_canon | mul_canon
| one_minus_canon | pnorm_canon | power_canon | trace_canon
| PWL_METHODS (key : atom_kind)
| PyNone.

(** [d[key]] on a dict: [KeyError] when the key is absent. *)
Definition dict_getitem {V} (d : gmap atom_kind V) (key : atom_kind) : exn + V :=
  match d !! key with
  | Some v => inr v
  | None => inl (KeyError key)
  end.

(** [key in d] on a dict. *)
Definition dict_contains {V} (d : gmap atom_kind V) (key : atom_kind) : bool :=
  bool_decide (is_Some (d !! key)).

(** The dict literal of lines 36-51 followed by the two item assignments
    of lines 53-54. *)
Definition CANON_METHODS : gmap atom_kind canon_value :=
  <[sum_largest := PWL_METHODS sum_largest]>
  (<[maximum := PWL_METHODS maximum]>
  (list_to_map [
     (AddExpression, add_canon);
     (Constant, constant_canon);
     (DivExpression, div_canon);
     (exp, exp_canon);
     (eye_minus_inv, eye_minus_inv_canon);
     (geo_mean, geo_mean_canon);
     (log, log_canon);
     (MulExpression, mulexpression_canon);
     (multiply, mul_canon);
     (one_minus, one_minus_canon);
     (pnorm, pnorm_canon);
     (power, power_canon);
     (trace, trace_canon);
     (Variable_, PyNone)
   ])).

(** An instance of [class DgpCanonMethods(dict)]: the items that the
    [dict] base class stores for it, and the attribute [_variables]. *)
Record DgpCanonMethods := {
  dict_items : gmap atom_kind canon_value;
  _variables : gmap nat Expr
}.

(** [DgpCanonMethods.__init__]: [items] is what [dict.__init__] makes of
    [*args, **kwargs]. *)
Definition __init__ (items : gmap atom_kind canon_value) : DgpCanonMethods :=
  {| dict_items := items; _variables := ∅ |}.

(** [self._variables[key] = v] *)
Definition set_variable (k : nat) (v : Expr) (self : DgpCanonMethods) : DgpCanonMethods :=
  {| dict_items := dict_items self; _variables := <[k := v]> (_variables self) |}.

Definition __contains__ (self : DgpCanonMethods) (key : atom_kind) : bool :=
  dict_contains CANON_METHODS key.

(** What [__getitem__] returns: a value of the table, or the method
    [variable_canon] bound to the instance it was looked up on. *)
Inductive canon_method :=
| table_value (c : canon_value)
| self_variable_canon.

Definition __getitem__ (self : DgpCanonMethods) (key : atom_kind) : exn + canon_method :=
  if decide (key = Variable_) then inr self_variable_canon
  else match dict_getitem CANON_METHODS key with
       | inr c => inr (table_value c)
       | inl e => inl e
       end.

(** The state a rewrite runs in: the [DgpCanonMethods] instance whose
    methods are called, and the reference the next new object gets. *)
Record canon_state := {
  self : DgpCanonMethods;
  fresh_ref : positive
}.

Definition variable_canon `{Expr_key} (expr : Expr) (args : list Expr)
  : py canon_state (Expr * list NewConstraint) :=
  λ st,
  match _variables (self st) !! dict_key expr with
  | Some v => (inr (v, []), st)
  | None =>
      let log_variable := new_Variable (fresh_ref st) (expr_shape expr) (expr_id expr) in
      (inr (log_variable, []),
       {| self := set_variable (dict_key expr) log_variable (self st);
          fresh_ref := Pos.succ (fresh_ref st) |})
  end.

(** One step of a rewrite run on one [DgpCanonMethods] instance: a call of
    the variable rule, or other code creating new objects (it has no
    access to [_variables]). *)
Inductive run_step `{Expr_key} : canon_state → canon_state → Prop :=
| step_variable_canon expr args st r st' :
    variable_canon expr args st = (r, st') → run_step st st'
| step_new_objects st n :
    run_step st {| self := self st; fresh_ref := n |}.

(** * gp2dcp.py *)

(** A problem: its objective and the list [_constraints] of (references
    to) its constraint objects.  The same object may be listed twice. *)
Record Problem := {
  objective : Expr;
  _constraints : list positive
}.

(** The store of constraint objects, by reference, and the reference the
    next new object gets. *)
Record heap := {
  constraint_at : positive → Constraint;
  next_ref : positive
}.

(** The problem that a reduction returns: new objects, held by value. *)
Record NewProblem := {
  new_objective : Expr;
  new_constraints : list NewConstraint
}.

(** The inverse data that [Gp2Dcp.apply] returns: the record [generic] of
    the generic engine, with the two attributes that [apply] sets on it. *)
Record InverseData (G : Type) := {
  generic : G;
  _problem : Problem;
  _canon_methods : DgpCanonMethods
}.
Arguments generic {G} _.
Arguments _problem {G} _.
Arguments _canon_methods {G} _.

(** [problem.is_dgp()]: the discipline check, an external collaborator.  It
    reads the problem and its constraint objects. *)
Class Discipline := is_dgp : Problem → (positive → Constraint) → bool.

(** [Canonicalization(canon_methods).apply(problem)]: the generic rewrite
    engine, an external collaborator (cvxpy/reductions/canonicalization.py
    is not among the sources).  It reads the problem and its constraint
    objects, calls the methods of the instance it was built with, creates
    new objects, and returns the new problem and its generic record, or
    raises. *)
Class Canonicalization (G : Type) :=
  Canonicalization_apply :
    Problem → (positive → Constraint) → py canon_state (NewProblem * G).

Definition setattr (c : positive) (f : Constraint → Constraint) : py heap unit :=
  λ h, (inr tt, {| constraint_at := alter f c (constraint_at h);
                   next_ref := next_ref h |}).

Definition set_args (a : list Expr) (o : Constraint) : Constraint :=
  {| constr_op := constr_op o; args := a; _old_args := _old_args o;
     _lhs := _lhs o; _rhs := _rhs o |}.

Definition set_old_args (a : option (list Expr)) (o : Constraint) : Constraint :=
  {| constr_op := constr_op o; args := args o; _old_args := a;
     _lhs := _lhs o; _rhs := _rhs o |}.

(** The body of the loop of lines 70-77. *)
Definition save_and_split (c : positive) : py heap unit :=
  setattr c (λ o, set_old_args (Some (args o)) o);;
  setattr c (λ o, set_args [_lhs o; _rhs o] o).

(** The body of the loop of lines 80-82: reading a missing [_old_args]
    raises [AttributeError]. *)
Definition restore (c : positive) : py heap unit :=
  h ← get_state;
  match _old_args (constraint_at h c) with
  | None => raise (AttributeError "_old_args")
  | Some old =>
      setattr c (set_args old);;
      setattr c (set_old_args None)
  end.

(** The call of lines 78-79, run on the heap: the engine starts from the
    instance [canon_methods] and leaves the constraint objects as they are. *)
Definition call_engine `{Canonicalization G} (canon_methods : DgpCanonMethods)
    (problem : Problem) : py heap (NewProblem * G * DgpCanonMethods) :=
  λ h,
  let '(r, st) := Canonicalization_apply problem (constraint_at h)
                    {| self := canon_methods; fresh_ref := next_ref h |} in
  (match r with
   | inr (equiv_problem, inverse_data) => inr (equiv_problem, inverse_data, self st)
   | inl e => inl e
   end,
   {| constraint_at := constraint_at h; next_ref := fresh_ref st |}).

Definition accepts `{Discipline} (problem : Problem) : py heap bool :=
  λ h, (inr (is_dgp problem (constraint_at h)), h).

Definition apply `{Discipline} `{Canonicalization G} (problem : Problem)
  : py heap (NewProblem * InverseData G) :=
  ok ← accepts problem;
  if negb ok then raise (ValueError "The supplied problem is not log-log DCP.")
  else
    let canon_methods := __init__ ∅ in
    for_each (_constraints problem) save_and_split;;
    (* the engine mutates the instance: from here on [canon_methods] is
       the instance as the engine left it *)
    '(equiv_problem, inverse_data, canon_methods) ← call_engine canon_methods problem;
    for_each (_constraints problem) restore;;
    mret (equiv_problem,
          {| generic := inverse_data; _problem := problem;
             _canon_methods := canon_methods |}).

(** ** Solutions *)

(** A solution object: solver status, optimal value, primal and dual
    values by identifier.  [ndarray] is the type of numeric values. *)
Record Solution (ndarray : Type) := {
  status : string;
  opt_val : ndarray;
  primal_vars : gmap nat ndarray;
  dual_vars : gmap nat ndarray
}.
Arguments status {ndarray} _.
Arguments opt_val {ndarray} _.
Arguments primal_vars {ndarray} _.
Arguments dual_vars {ndarray} _.

Definition set_primal_vars {ndarray} (p : gmap nat ndarray) (s : Solution ndarray) : Solution ndarray :=
  {| status := status s; opt_val := opt_val s; primal_vars := p; dual_vars := dual_vars s |}.

Definition set_opt_val {ndarray} (v : ndarray) (s : Solution ndarray) : Solution ndarray :=
  {| status := status s; opt_val := v; primal_vars := primal_vars s; dual_vars := dual_vars s |}.

(** The numeric kernel, an external collaborator: [np.exp], and the value
    of an expression when its variables hold the given values. *)
Class Numeric (ndarray : Type) := {
  np_exp : ndarray → ndarray;
  Expr_value : Expr → gmap nat ndarray → ndarray
}.

(** [cvxpy.settings] is not among the sources: the two status lists that
    [invert] tests are parameters. *)
Class Settings := {
  SOLUTION_PRESENT : list string;
  INF_OR_UNB : list string
}.

(** [Canonicalization.invert]: the generic inverse step, an external
    collaborator. *)
Class Canonicalization_inverse (G ndarray : Type) :=
  Canonicalization_invert : Solution ndarray → InverseData G → Solution ndarray.

(** The solution state of the original problem object: the values held by
    its variables, by identifier, and its cached solution. *)
Record Problem_state (ndarray : Type) := {
  variable_values : gmap nat ndarray;
  _solution : option (Solution ndarray)
}.
Arguments variable_values {ndarray} _.
Arguments _solution {ndarray} _.

(** Modelled from the spec: [Problem.unpack] is not among the sources.  It
    installs the primal values of the solution into the problem's variables
    and caches the solution on the problem. *)
Definition unpack {ndarray} (solution : Solution ndarray) : py (Problem_state ndarray) unit :=
  λ p, (inr tt, {| variable_values := primal_vars solution ∪ variable_values p;
                   _solution := Some solution |}).

(** Modelled from the spec: the property [Problem.solution] is not among
    the sources.  It is the solution cached on the problem, or [None]. *)
Definition Problem_solution {ndarray} : py (Problem_state ndarray) (option (Solution ndarray)) :=
  λ p, (inr (_solution p), p).

(** Modelled from the spec: [problem.objective.value] is not among the
    sources.  The problem recomputes the value of its own objective from
    the values that its variables hold. *)
Definition objective_value `{Numeric ndarray} (problem : Problem) : py (Problem_state ndarray) ndarray :=
  λ p, (inr (Expr_value (objective problem) (variable_values p)), p).

(** Modelled from the spec: [Problem._clear_solution] is not among the
    sources.  It clears the transient solution state of the problem: the
    installed values and the cached solution. *)
Definition _clear_solution {ndarray} : py (Problem_state ndarray) unit :=
  λ _, (inr tt, {| variable_values := ∅; _solution := None |}).

(** [Gp2Dcp.invert]; the state is that of the object [inverse_data._problem]. *)
Definition invert `{Numeric ndarray} `{Settings} `{Canonicalization_inverse G ndarray}
    (solution : Solution ndarray) (inverse_data : InverseData G)
  : py (Problem_state ndarray) (Solution ndarray) :=
  let solution := Canonicalization_invert solution inverse_data in
  let solution := set_primal_vars (np_exp <$> primal_vars solution) solution in
  if decide (status solution ∈ SOLUTION_PRESENT) then
    unpack solution;;
    cached ← Problem_solution;
    v ← objective_value (_problem inverse_data);
    match cached with
    | None => raise (AttributeError "opt_val")
    | Some solution =>
        let solution := set_opt_val v solution in
        _clear_solution;;
        mret solution
    end
  else if decide (status solution ∈ INF_OR_UNB) then
    mret (set_opt_val (np_exp (opt_val solution)) solution)
  else
    mret solution.

(** * The generic rewrite engine, from the spec *)

(** The canonicalizer functions that the table names are external
    collaborators (their modules are not among the sources): a rule takes
    the node and its rewritten arguments, creates new objects from the
    given reference on, and returns the rewritten node with its extra
    constraints, or raises.  It has no access to the [DgpCanonMethods]
    instance. *)
Class Canonicalizers :=
  call_canon : canon_value → Expr → list Expr → py positive (Expr * list NewConstraint).

Definition with_fresh_ref {A} (m : py positive A) : py canon_state A :=
  λ st, let '(r, n) := m (fresh_ref st) in (r, {| self := self st; fresh_ref := n |}).

(** [self.canon_methods[key]] *)
Definition lookup_method (key : atom_kind) : py canon_state canon_method :=
  λ st, (__getitem__ (self st) key, st).

(** [method(expr, args)]: calling [None] raises [TypeError]. *)
Definition call_method `{Expr_key} `{Canonicalizers} (method : canon_method)
    (expr : Expr) (canon_args : list Expr) : py canon_state (Expr * list NewConstraint) :=
  match method with
  | self_variable_canon => variable_canon expr canon_args
  | table_value PyNone => raise (TypeError "'NoneType' object is not callable")
  | table_value c => with_fresh_ref (call_canon c expr canon_args)
  end.

(** Rewrites a list of arguments from left to right, collecting the extra
    constraints. *)
Definition canonicalize_args (rewrite : Expr → py canon_state (Expr * list NewConstraint))
  : list Expr → py canon_state (list Expr * list NewConstraint) :=
  fix go l :=
    match l with
    | [] => mret ([], [])
    | arg :: l' =>
        '(canon_arg, c) ← rewrite arg;
        '(canon_args, constrs) ← go l';
        mret (canon_arg :: canon_args, c ++ constrs)
    end.

(** Modelled from the spec: the tree walk of the generic rewrite engine is
    not among the sources.  It walks an expression bottom-up: the arguments
    are rewritten first, then the rule looked up for the kind of the node
    is applied to the node and its rewritten arguments; a failed lookup
    fails the walk. *)
Fixpoint canonicalize_tree `{Expr_key} `{Canonicalizers} (expr : Expr)
  : py canon_state (Expr * list NewConstraint) :=
  match expr with
  | mkExpr _ type _ _ _ args =>
      '(canon_args, constrs) ← canonicalize_args canonicalize_tree args;
      method ← lookup_method type;
      '(canon_expr, c) ← call_method method expr canon_args;
      mret (canon_expr, constrs ++ c)
  end.

(** Modelled from the spec: the engine rewrites the operands in the
    argument list of every constraint and relates the rewritten operands in
    a new constraint object, after the extra constraints of the rewrite. *)
Definition canonicalize_constraints `{Expr_key} `{Canonicalizers}
    (store : positive → Constraint) : list positive → py canon_state (list NewConstraint) :=
  fix go l :=
    match l with
    | [] => mret []
    | c :: l' =>
        '(canon_args, aux) ← canonicalize_args canonicalize_tree (args (store c));
        rest ← go l';
        mret (aux ++ {| new_op := constr_op (store c); new_args := canon_args |} :: rest)
    end.

(** Modelled from the spec: [Canonicalization.apply] is not among the
    sources.  It rewrites the objective and the constraints with the rule
    table it was given and returns the new problem with its generic inverse
    record (whose content the spec leaves open: [tt]). *)
Definition Canonicalization_spec `{Expr_key} `{Canonicalizers} : Canonicalization unit :=
  λ problem store,
    '(canon_objective, constrs) ← canonicalize_tree (objective problem);
    canon_constraints ← canonicalize_constraints store (_constraints problem);
    mret ({| new_objective := canon_objective;
             new_constraints := constrs ++ canon_constraints |}, tt).

(** The node kind [key] occurs in an expression: at the node itself or in
    one of its arguments. *)
Inductive occurs (key : atom_kind) : Expr → Prop :=
| occurs_here expr : expr_type expr = key → occurs key expr
| occurs_arg expr arg : arg ∈ expr_args expr → occurs key arg → occurs key expr.

(** The node kind [key] occurs in what the engine walks: the objective, or
    the left or right operand of a constraint of the problem. *)
Definition mentions (key : atom_kind) (problem : Problem) (h : heap) : Prop :=
  occurs key (objective problem) ∨
  ∃ c, c ∈ _constraints problem ∧
       (occurs key (_lhs (constraint_at h c)) ∨ occurs key (_rhs (constraint_at h c))).

(** Every canonicalizer function returns (none raises). *)
Definition canonicalizers_return `{Canonicalizers} : Prop :=
  ∀ c expr canon_args n, ∃ r n', call_canon c expr canon_args n = (inr r, n').

(** The property of the restructuring as the spec states it: after the
    call, every constraint of the problem has the argument list it had
    before and no [_old_args]. *)
Definition restored (problem : Problem) (h h' : heap) : Prop :=
  ∀ c, c ∈ _constraints problem →
    args (constraint_at h' c) = args (constraint_at h c) ∧
    _old_args (constraint_at h' c) = None.

(** [e] is a node of the expression [t]: [t] itself, or a node of one of
    its arguments. *)
Inductive subexpr (e : Expr) : Expr → Prop :=
| subexpr_refl : subexpr e e
| subexpr_arg t arg : arg ∈ expr_args t → subexpr e arg → subexpr e t.

(** One step of a run in which new objects get references in increasing
    order: a call of the variable rule, or other code creating objects
    and leaving the allocator at or after where it was. *)
Inductive forward_step `{Expr_key} : canon_state → canon_state → Prop :=
| forward_variable_canon expr args st r st' :
    variable_canon expr args st = (r, st') → forward_step st st'
| forward_new_objects st n :
    (fresh_ref st ≤ n)%positive →
    forward_step st {| self := self st; fresh_ref := n |}.

(** The source uses the expression object itself as the key of
    [_variables] (lines 72-76): an object is told from every other object
    by its reference, whatever identifier it carries. *)
Definition key_by_object : Expr_key := λ expr, Pos.to_nat (expr_ref expr).

(** What the engine walks for a problem, in order: the objective, then
    the left and the right operand of each constraint. *)
Definition walked (problem : Problem) (h : heap) : list Expr :=
  objective problem ::
  flat_map (λ c, [_lhs (constraint_at h c); _rhs (constraint_at h c)]) (_constraints problem).

(** [visits l st e st_e]: the walk of the list [l] from the state [st]
    reaches the node [e] in the state [st_e], that is, it calls
    [canonicalize_tree e] there.  The walk of a list starts with its first
    element; the walk of an element starts with the walk of its
    arguments; and after the walk of the first element has returned, the
    rest of the list is walked from the state it left. *)
Inductive visits `{Expr_key} `{Canonicalizers}
  : list Expr → canon_state → Expr → canon_state → Prop :=
| visits_head a l st : visits (a :: l) st a st
| visits_inside a l st e st_e :
    visits (expr_args a) st e st_e → visits (a :: l) st e st_e
| visits_tail a l st r st1 e st_e :
    canonicalize_tree a st = (inr r, st1) →
    visits l st1 e st_e → visits (a :: l) st e st_e.

(** * A small scenario

    Concrete collaborators and a concrete problem, on which the theorems
    below are run: minimize [x * y] (or [cumsum(x)], a kind without rule)
    subject to [x <= 1]. *)
Module Scenario.

(** The identifier as dict key, as in the spec's data model.  On [x], [y]
    and the problems below, whose references and identifiers coincide, it
    gives the keys of the object key [key_by_object]; on [x_again] the two
    differ. *)
Definition key_by_id : Expr_key := expr_id.

Definition always_dgp : Discipline := λ _ _, true.
Definition never_dgp : Discipline := λ _ _, false.

(** Every canonicalizer returns a new node of the kind of the original
    over the rewritten arguments, with no extra constraint. *)
Definition rebuild : Canonicalizers :=
  λ _ expr canon_args n,
    (inr (mkExpr n (expr_type expr) (expr_id expr) (expr_shape expr) [] canon_args, []),
     Pos.succ n).

Definition x : Expr := mkExpr 1 Variable_ 1 [] ["pos"] [].
Definition y : Expr := mkExpr 2 Variable_ 2 [] ["pos"] [].
(** Another object with the identifier of [x]. *)
Definition x_again : Expr := mkExpr 8 Variable_ 1 [] ["pos"] [].
Definition one : Expr := mkExpr 3 Constant 3 [] [] [].
Definition x_times_y : Expr := mkExpr 4 multiply 4 [] [] [x; y].
Definition minus_one : Expr := mkExpr 5 (OtherAtom "NegExpression") 5 [] [] [one].
Definition x_minus_one : Expr := mkExpr 6 AddExpression 6 [] [] [x; minus_one].
Definition cumsum_x : Expr := mkExpr 7 (OtherAtom "cumsum") 7 [] [] [x].

(** The constraint [x <= 1] with its default argument list. *)
Definition x_le_one : Constraint :=
  {| constr_op := op_leq; args := [x_minus_one]; _old_args := None;
     _lhs := x; _rhs := one |}.

(** A heap in which every reference holds such a constraint object. *)
Definition heap0 : heap := {| constraint_at := λ _, x_le_one; next_ref := 100 |}.

Definition problem_xy : Problem := {| objective := x_times_y; _constraints := [10%positive] |}.
Definition problem_cumsum : Problem :=
  {| objective := cumsum_x; _constraints := [10%positive] |}.
Definition problem_twice : Problem :=
  {| objective := x_times_y; _constraints := [10%positive; 10%positive] |}.

Definition Canonicalization_rebuild : Canonicalization unit :=
  @Canonicalization_spec key_by_id rebuild.

(** An engine that refuses to start from an instance whose cache has
    entries. *)
Definition Canonicalization_picky : Canonicalization unit :=
  λ problem store st,
    if bool_decide (_variables (self st) = ∅)
    then Canonicalization_rebuild problem store st
    else (inl (OtherError "the cache has entries"), st).

Definition fresh_state : canon_state := {| self := __init__ ∅; fresh_ref := 100 |}.
Definition log_x : Expr := new_Variable 100 [] 1.
Definition log_y : Expr := new_Variable 101 [] 2.
Definition state_x : canon_state :=
  {| self := set_variable 1 log_x (__init__ ∅); fresh_ref := 101 |}.
Definition state_xy : canon_state :=
  {| self := set_variable 2 log_y (set_variable 1 log_x (__init__ ∅)); fresh_ref := 102 |}.

(** The state after the walk of [x * y] from [fresh_state]. *)
Definition state_walked : canon_state := {| self := self state_xy; fresh_ref := 103 |}.

(** Integers stand in for numeric values, [2 ^ z] for the exponential,
    and the value of an expression is the value of the variable 1. *)
Definition numeric_Z : Numeric Z :=
  {| np_exp := λ z, (2 ^ z)%Z; Expr_value := λ _ values, default 0%Z (values !! 1) |}.

Definition settings : Settings :=
  {| SOLUTION_PRESENT := ["optimal"; "optimal_inaccurate"];
     INF_OR_UNB := ["infeasible"; "unbounded"] |}.

(** A generic inverse step with nothing to map back. *)
Definition inverse_id : Canonicalization_inverse unit Z := λ solution _, solution.

Definition some_inverse_data : InverseData unit :=
  {| generic := tt; _problem := problem_xy; _canon_methods := self state_xy |}.

Definition solved (st : string) : Solution Z :=
  {| status := st; opt_val := 3%Z;
     primal_vars := {[ 1 := 0%Z; 2 := 5%Z ]}; dual_vars := ∅ |}.

Definition no_solution : Problem_state Z :=
  {| variable_values := ∅; _solution := None |}.

(** The engine of the spec with the object key. *)
Definition Canonicalization_by_object : Canonicalization unit :=
  @Canonicalization_spec key_by_object rebuild.

(** The variable that the variable rule creates for [x_again] after [x],
    and the state it leaves, with the object key. *)
Definition log_x_again : Expr := new_Variable 101 [] 1.
Definition state_x_again : canon_state :=
  {| self := set_variable 8 log_x_again (set_variable 1 log_x (__init__ ∅));
     fresh_ref := 102 |}.

(** An engine that raises when it starts at the reference 100 and works
    as [Canonicalization_rebuild] otherwise. *)
Definition Canonicalization_flaky : Canonicalization unit :=
  λ problem store st,
    if bool_decide (fresh_ref st = 100%positive)
    then (inl (OtherError "first call"), {| self := self st; fresh_ref := 101 |})
    else Canonicalization_rebuild problem store st.

(** An engine that refuses a problem with a constraint whose argument
    list does not have two operands. *)
Definition Canonicalization_strict : Canonicalization unit :=
  λ problem store st,
    if forallb (λ c, bool_decide (length (args (store c)) = 2)) (_constraints problem)
    then Canonicalization_rebuild problem store st
    else (inl (OtherError "a constraint is not split"), st).

End Scenario.

(** * Properties of the rewrite table and of [DgpCanonMethods] *)

Lemma table_lookup_Some (key : atom_kind) (c : canon_value) :
  CANON_METHODS !! key = Some c →
  (key, c) ∈ [ (sum_largest, PWL_METHODS sum_largest); (maximum, PWL_METHODS maximum);
               (AddExpression, add_canon); (Constant, constant_canon);
               (DivExpression, div_canon); (exp, exp_canon);
               (eye_minus_inv, eye_minus_inv_canon); (geo_mean, geo_mean_canon);
               (log, log_canon); (MulExpression, mulexpression_canon);
               (multiply, mul_canon); (one_minus, one_minus_canon);
               (pnorm, pnorm_canon); (power, power_canon); (trace, trace_canon);
               (Variable_, PyNone) ].
Proof.
  unfold CANON_METHODS. intros Hlook.
  apply lookup_insert_Some in Hlook as [[<- <-]|[_ Hlook]]; [by left|].
  apply lookup_insert_Some in Hlook as [[<- <-]|[_ Hlook]]; [by right; left|].
  apply elem_of_list_to_map_2 in Hlook. by do 2 right.
Qed.

Lemma table_None_is_Variable (key : atom_kind) :
  CANON_METHODS !! key = Some PyNone → key = Variable_.
Proof.
  intros Hin%table_lookup_Some.
  repeat (apply elem_of_cons in Hin as [Heq|Hin]; [congruence|]).
  by apply elem_of_nil in Hin.
Qed.

Lemma table_OtherAtom (name : string) : CANON_METHODS !! OtherAtom name = None.
Proof.
  destruct (CANON_METHODS !! OtherAtom name) as [c|] eqn:Hlook; [|done].
  apply table_lookup_Some in Hlook.
  repeat (apply elem_of_cons in Hlook as [Heq|Hlook]; [congruence|]).
  by apply elem_of_nil in Hlook.
Qed.

Lemma getitem_Variable (self : DgpCanonMethods) :
  __getitem__ self Variable_ = inr self_variable_canon.
Proof. reflexivity. Qed.

Lemma getitem_table (self : DgpCanonMethods) (key : atom_kind) :
  key ≠ Variable_ →
  __getitem__ self key =
    match CANON_METHODS !! key with
    | Some c => inr (table_value c)
    | None => inl (KeyError key)
    end.
Proof.
  intros Hkey. unfold __getitem__, dict_getitem.
  destruct (decide (key = Variable_)); [done|].
  by destruct (CANON_METHODS !! key).
Qed.

Lemma getitem_not_None (self : DgpCanonMethods) (key : atom_kind) :
  __getitem__ self key ≠ inr (table_value PyNone).
Proof.
  intros Hget. destruct (decide (key = Variable_)) as [->|Hkey].
  - rewrite getitem_Variable in Hget. discriminate.
  - rewrite getitem_table in Hget by done.
    destruct (CANON_METHODS !! key) as [c|] eqn:Hlook; [|discriminate].
    injection Hget as ->. by apply table_None_is_Variable in Hlook.
Qed.

(** C9: the table maps the variable kind to [None], but a lookup of the
    variable kind on an instance returns the method [variable_canon] bound
    to that instance, and no lookup on an instance returns [None]: the
    engine never gets a [None] rule to call. *)
Theorem getitem_never_None :
  CANON_METHODS !! Variable_ = Some PyNone ∧
  (∀ self : DgpCanonMethods, __getitem__ self Variable_ = inr self_variable_canon) ∧
  (∀ (self : DgpCanonMethods) (key : atom_kind),
     __getitem__ self key ≠ inr (table_value PyNone)).
Proof.
  split; [reflexivity|]. split; [apply getitem_Variable|apply getitem_not_None].
Qed.

(** * Properties of the variable rule *)

Section variable_rule.
Context `{Expr_key}.

Lemma variable_canon_hit (expr : Expr) (args : list Expr) (st : canon_state) (v : Expr) :
  _variables (self st) !! dict_key expr = Some v →
  variable_canon expr args st = (inr (v, []), st).
Proof. intros Hlook. unfold variable_canon. by rewrite Hlook. Qed.

Lemma variable_canon_miss (expr : Expr) (args : list Expr) (st : canon_state) :
  _variables (self st) !! dict_key expr = None →
  variable_canon expr args st =
    (inr (new_Variable (fresh_ref st) (expr_shape expr) (expr_id expr), []),
     {| self := set_variable (dict_key expr)
                  (new_Variable (fresh_ref st) (expr_shape expr) (expr_id expr)) (self st);
        fresh_ref := Pos.succ (fresh_ref st) |}).
Proof. intros Hlook. unfold variable_canon. by rewrite Hlook. Qed.

Lemma variable_canon_records (expr : Expr) (args : list Expr) (st st' : canon_state)
    (v : Expr) (c : list NewConstraint) :
  variable_canon expr args st = (inr (v, c), st') →
  _variables (self st') !! dict_key expr = Some v.
Proof.
  unfold variable_canon.
  destruct (_variables (self st) !! dict_key expr) as [w|] eqn:Hlook.
  - intros [= <- <- <-]. done.
  - intros [= <- <- <-]. simpl. apply lookup_insert_eq.
Qed.

Lemma variable_canon_keeps (expr : Expr) (args : list Expr) (st st' : canon_state)
    (r : exn + Expr * list NewConstraint) (k : nat) (v : Expr) :
  _variables (self st) !! k = Some v →
  variable_canon expr args st = (r, st') →
  _variables (self st') !! k = Some v.
Proof.
  intros Hk. unfold variable_canon.
  destruct (_variables (self st) !! dict_key expr) as [w|] eqn:Hlook.
  - intros [= <- <-]. done.
  - intros [= <- <-]. simpl. rewrite lookup_insert_ne; [done|].
    intros Heq. rewrite Heq in Hlook. congruence.
Qed.

Lemma run_keeps (st st' : canon_state) (k : nat) (v : Expr) :
  rtc run_step st st' →
  _variables (self st) !! k = Some v →
  _variables (self st') !! k = Some v.
Proof.
  induction 1 as [st|st st1 st2 Hstep _ IH]; [done|].
  intros Hk. apply IH. destruct Hstep as [expr args st r st' Hcall|st n].
  - by eapply variable_canon_keeps.
  - done.
Qed.

(** C8: for a variable whose key is not in the cache, the variable rule
    creates a new variable object (its reference is the next fresh one,
    so it is none of the objects in the cache when these were allocated
    before) of kind variable with the identifier and the shape of the
    original and no attribute, records it in the cache under the key of
    the original, and returns it with an empty list of constraints. *)
Theorem variable_canon_mints (expr : Expr) (args : list Expr) (st : canon_state) :
  _variables (self st) !! dict_key expr = None →
  ∃ (log_variable : Expr) (st' : canon_state),
    variable_canon expr args st = (inr (log_variable, []), st') ∧
    expr_type log_variable = Variable_ ∧
    expr_id log_variable = expr_id expr ∧
    expr_shape log_variable = expr_shape expr ∧
    expr_attributes log_variable = [] ∧
    expr_args log_variable = [] ∧
    expr_ref log_variable = fresh_ref st ∧
    fresh_ref st' = Pos.succ (fresh_ref st) ∧
    _variables (self st') = <[dict_key expr := log_variable]> (_variables (self st)) ∧
    dict_items (self st') = dict_items (self st) ∧
    ((∀ k w, _variables (self st) !! k = Some w → (expr_ref w < fresh_ref st)%positive) →
     ∀ k w, _variables (self st) !! k = Some w → w ≠ log_variable).
Proof.
  intros Hlook. eexists _, _. split; [by apply variable_canon_miss|].
  repeat split; try reflexivity.
  intros Hold k w Hk ->. apply Hold in Hk. simpl in Hk. lia.
Qed.
End variable_rule.

(** * Properties of [Gp2Dcp.apply] *)

Lemma for_each_cons {S A} (body : A → py S unit) (x : A) (l : list A) (s : S) :
  for_each (x :: l) body s =
    match body x s with
    | (inr _, s') => for_each l body s'
    | (inl e, s') => (inl e, s')
    end.
Proof. reflexivity. Qed.

(** The effect of the first loop body on the object it visits. *)
Lemma save_and_split_at (c : positive) (h : heap) :
  ∃ h', save_and_split c h = (inr tt, h') ∧
    next_ref h' = next_ref h ∧
    ∀ c', constraint_at h' c' =
      if decide (c = c') then
        {| constr_op := constr_op (constraint_at h c);
           args := [_lhs (constraint_at h c); _rhs (constraint_at h c)];
           _old_args := Some (args (constraint_at h c));
           _lhs := _lhs (constraint_at h c); _rhs := _rhs (constraint_at h c) |}
      else constraint_at h c'.
Proof.
  eexists. split; [reflexivity|]. split; [reflexivity|]. intros c'. simpl.
  destruct (decide (c = c')) as [->|Hne].
  - by rewrite !fn_lookup_alter.
  - by rewrite !fn_lookup_alter_ne.
Qed.

(** The heap after the first loop: every listed constraint has [lhs, rhs]
    as its argument list and carries [_old_args]; the other objects are
    as before. *)
Lemma save_and_split_loop (l : list positive) (h : heap) :
  ∃ h1, for_each l save_and_split h = (inr tt, h1) ∧
    next_ref h1 = next_ref h ∧
    (∀ c, c ∉ l → constraint_at h1 c = constraint_at h c) ∧
    (∀ c, c ∈ l →
       args (constraint_at h1 c) = [_lhs (constraint_at h c); _rhs (constraint_at h c)] ∧
       is_Some (_old_args (constraint_at h1 c)) ∧
       constr_op (constraint_at h1 c) = constr_op (constraint_at h c) ∧
       _lhs (constraint_at h1 c) = _lhs (constraint_at h c) ∧
       _rhs (constraint_at h1 c) = _rhs (constraint_at h c)) ∧
    (NoDup l → ∀ c, c ∈ l → _old_args (constraint_at h1 c) = Some (args (constraint_at h c))).
Proof.
  revert h. induction l as [|x l IH]; intros h.
  - exists h. split; [reflexivity|]. split; [reflexivity|].
    split; [done|]. split; intros; by exfalso; eapply elem_of_nil.
  - rewrite for_each_cons.
    destruct (save_and_split_at x h) as (hx & -> & Hnx & Hx).
    destruct (IH hx) as (h1 & -> & Hn1 & Hout & Hin & Hnodup).
    exists h1. split; [reflexivity|]. split; [congruence|].
    assert (∀ c, _lhs (constraint_at hx c) = _lhs (constraint_at h c) ∧
                 _rhs (constraint_at hx c) = _rhs (constraint_at h c) ∧
                 constr_op (constraint_at hx c) = constr_op (constraint_at h c)) as Hframe.
    { intros c. rewrite Hx. by destruct (decide (x = c)) as [->|]. }
    split; [|split].
    + intros c [Hcx Hcl]%not_elem_of_cons. rewrite Hout, Hx by done.
      destruct (decide (x = c)); congruence.
    + intros c Hc. destruct (decide (c ∈ l)) as [Hcl|Hcl].
      * destruct (Hin c Hcl) as (Ha & Ho & Hop & Hl & Hr).
        destruct (Hframe c) as (Hl' & Hr' & Hop'). repeat split; congruence.
      * apply elem_of_cons in Hc as [->|]; [|done].
        rewrite Hout, Hx by done. destruct (decide (x = x)); [|done]. simpl.
        repeat split; eauto.
    + intros [Hxl Hl]%list.NoDup_cons c Hc. destruct (decide (c ∈ l)) as [Hcl|Hcl].
      * rewrite (Hnodup Hl c Hcl), Hx. destruct (decide (x = c)); congruence.
      * apply elem_of_cons in Hc as [->|]; [|done].
        rewrite Hout, Hx by done. by destruct (decide (x = x)).
Qed.

(** The second loop on a list without repetition whose constraints all
    carry [_old_args]: it returns, and every listed constraint gets its
    saved list back and loses [_old_args]. *)
Lemma restore_loop (l : list positive) (h : heap) :
  NoDup l →
  (∀ c, c ∈ l → is_Some (_old_args (constraint_at h c))) →
  ∃ h2, for_each l restore h = (inr tt, h2) ∧
    next_ref h2 = next_ref h ∧
    (∀ c, c ∉ l → constraint_at h2 c = constraint_at h c) ∧
    (∀ c, c ∈ l →
       Some (args (constraint_at h2 c)) = _old_args (constraint_at h c) ∧
       _old_args (constraint_at h2 c) = None ∧
       constr_op (constraint_at h2 c) = constr_op (constraint_at h c) ∧
       _lhs (constraint_at h2 c) = _lhs (constraint_at h c) ∧
       _rhs (constraint_at h2 c) = _rhs (constraint_at h c)).
Proof.
  revert h. induction l as [|x l IH]; intros h Hnd Hold.
  - exists h. split; [reflexivity|]. split; [reflexivity|].
    split; [done|]. intros; by exfalso; eapply elem_of_nil.
  - apply list.NoDup_cons in Hnd as [Hxl Hnd].
    destruct (Hold x) as [old Hx]; [by left|].
    rewrite for_each_cons. unfold restore at 1, mbind, py_bind, get_state.
    rewrite Hx. simpl.
    set (hx := {| constraint_at := _; next_ref := next_ref h |}).
    assert (∀ c', constraint_at hx c' =
              if decide (x = c') then
                {| constr_op := constr_op (constraint_at h x); args := old;
                   _old_args := None;
                   _lhs := _lhs (constraint_at h x); _rhs := _rhs (constraint_at h x) |}
              else constraint_at h c') as Hhx.
    { intros c'. unfold hx. simpl. destruct (decide (x = c')) as [->|Hne].
      - by rewrite !fn_lookup_alter.
      - by rewrite !fn_lookup_alter_ne. }
    destruct (IH hx Hnd) as (h2 & -> & Hn2 & Hout & Hin).
    { intros c Hc. rewrite Hhx. destruct (decide (x = c)) as [->|]; [done|].
      apply Hold. by right. }
    exists h2. split; [reflexivity|]. split; [done|]. split.
    + intros c [Hcx Hcl]%not_elem_of_cons. rewrite Hout, Hhx by done.
      destruct (decide (x = c)); congruence.
    + intros c Hc. apply elem_of_cons in Hc as [->|Hcl].
      * rewrite Hout, Hhx by done. destruct (decide (x = x)); [|done]. simpl.
        by rewrite Hx.
      * destruct (Hin c Hcl) as (Ha & Ho & Hop & Hl & Hr).
        rewrite Hhx in Ha, Hop, Hl, Hr.
        destruct (decide (x = c)) as [->|]; [done|]. done.
Qed.

Lemma restore_at (c : positive) (h : heap) :
  restore c h =
    match _old_args (constraint_at h c) with
    | None => (inl (AttributeError "_old_args"), h)
    | Some old =>
        (inr tt, {| constraint_at := alter (set_old_args None) c
                                       (alter (set_args old) c (constraint_at h));
                    next_ref := next_ref h |})
    end.
Proof.
  unfold restore, mbind, py_bind, get_state.
  by destruct (_old_args (constraint_at h c)).
Qed.

(** The second loop visiting one object twice: the second visit finds
    [_old_args] deleted. *)
Lemma restore_twice (c : positive) (h : heap) (old : list Expr) :
  _old_args (constraint_at h c) = Some old →
  ∃ h2, for_each [c; c] restore h = (inl (AttributeError "_old_args"), h2) ∧
    args (constraint_at h2 c) = old ∧
    _old_args (constraint_at h2 c) = None.
Proof.
  intros Hold. rewrite for_each_cons, restore_at, Hold.
  rewrite for_each_cons, restore_at.
  cbn [constraint_at]. rewrite !fn_lookup_alter. cbn [_old_args set_old_args].
  eexists. split; [reflexivity|]. cbn [constraint_at].
  rewrite !fn_lookup_alter. done.
Qed.

(** The first loop visiting one object twice: the second visit saves the
    split list over the original one. *)
Lemma save_and_split_twice (c : positive) (h : heap) :
  ∃ h1, for_each [c; c] save_and_split h = (inr tt, h1) ∧
    next_ref h1 = next_ref h ∧
    _old_args (constraint_at h1 c) =
      Some [_lhs (constraint_at h c); _rhs (constraint_at h c)].
Proof.
  rewrite for_each_cons.
  destruct (save_and_split_at c h) as (hx & -> & Hnx & Hx).
  rewrite for_each_cons.
  destruct (save_and_split_at c hx) as (h1 & -> & Hn1 & H1).
  exists h1. split; [reflexivity|]. split; [congruence|].
  rewrite H1, Hx. by destruct (decide (c = c)).
Qed.

Section apply_properties.
Context `{Discipline} {G : Type} `{!Canonicalization G}.

Lemma apply_rejected (problem : Problem) (h : heap) :
  is_dgp problem (constraint_at h) = false →
  apply problem h = (inl (ValueError "The supplied problem is not log-log DCP."), h).
Proof.
  intros Hdgp. unfold apply, accepts, mbind, py_bind. by rewrite Hdgp.
Qed.

(** [apply] on an accepted problem, step by step: [h1] is the heap
    after the first loop. *)
Lemma apply_accepted (problem : Problem) (h h1 : heap) :
  is_dgp problem (constraint_at h) = true →
  for_each (_constraints problem) save_and_split h = (inr tt, h1) →
  apply problem h =
    match Canonicalization_apply problem (constraint_at h1)
            {| self := __init__ ∅; fresh_ref := next_ref h1 |} with
    | (inl e, st) => (inl e, {| constraint_at := constraint_at h1; next_ref := fresh_ref st |})
    | (inr (equiv_problem, inverse_data), st) =>
        match for_each (_constraints problem) restore
                {| constraint_at := constraint_at h1; next_ref := fresh_ref st |} with
        | (inl e, h2) => (inl e, h2)
        | (inr _, h2) =>
            (inr (equiv_problem,
                  {| generic := inverse_data; _problem := problem;
                     _canon_methods := self st |}), h2)
        end
    end.
Proof.
  intros Hdgp Hloop. unfold apply, accepts, mbind, py_bind, call_engine.
  rewrite Hdgp. simpl. rewrite Hloop.
  destruct (Canonicalization_apply _ _ _) as [[e|[equiv_problem inverse_data]] st]; [done|].
  by destruct (for_each _ restore _) as [[e|[]] h2].
Qed.

(** C4: when the discipline check fails ([accepts] is false), [apply]
    raises the [ValueError] of line 67 and the heap is the one it was
    called on: no object was touched and none was created. *)
Theorem apply_rejects_before_mutation (problem : Problem) (h : heap) :
  is_dgp problem (constraint_at h) = false →
  accepts problem h = (inr false, h) ∧
  apply problem h = (inl (ValueError "The supplied problem is not log-log DCP."), h).
Proof.
  intros Hdgp. split; [|by apply apply_rejected].
  unfold accepts. by rewrite Hdgp.
Qed.

(** An error of the generic engine leaves [apply] as it is, with no
    result, and the second loop does not run. *)
Lemma apply_engine_raises (problem : Problem) (h h1 : heap) (e : exn) (st : canon_state) :
  is_dgp problem (constraint_at h) = true →
  for_each (_constraints problem) save_and_split h = (inr tt, h1) →
  Canonicalization_apply problem (constraint_at h1)
    {| self := __init__ ∅; fresh_ref := next_ref h1 |} = (inl e, st) →
  apply problem h = (inl e, {| constraint_at := constraint_at h1; next_ref := fresh_ref st |}).
Proof.
  intros Hdgp Hloop Hengine. rewrite (apply_accepted _ _ _ Hdgp Hloop). by rewrite Hengine.
Qed.

(** C1, as amended: for a problem whose constraint list holds no object
    twice, (1) a failed discipline check leaves the heap as it was;
    (2) when [apply] returns, every constraint of the problem has the
    argument list it had before the call and no [_old_args];
    (3) when the generic engine raises, [apply] raises the same error and
    every constraint of the problem is left with [lhs, rhs] as its
    argument list and the former list in [_old_args]: the second loop
    has not run;
    (4) objects that are not constraints of the problem are never
    touched. *)
Theorem apply_restores_on_return (problem : Problem) (h h' : heap)
    (r : exn + NewProblem * InverseData G) :
  NoDup (_constraints problem) →
  apply problem h = (r, h') →
  (is_dgp problem (constraint_at h) = false → h' = h) ∧
  (∀ res, r = inr res → restored problem h h') ∧
  (∀ e, r = inl e → is_dgp problem (constraint_at h) = true →
     (∃ h1 st, for_each (_constraints problem) save_and_split h = (inr tt, h1) ∧
        Canonicalization_apply problem (constraint_at h1)
          {| self := __init__ ∅; fresh_ref := next_ref h1 |} = (inl e, st)) ∧
     ∀ c, c ∈ _constraints problem →
       args (constraint_at h' c) = [_lhs (constraint_at h c); _rhs (constraint_at h c)] ∧
       _old_args (constraint_at h' c) = Some (args (constraint_at h c))) ∧
  (∀ c, c ∉ _constraints problem → constraint_at h' c = constraint_at h c).
Proof.
  intros Hnd Happly.
  destruct (is_dgp problem (constraint_at h)) eqn:Hdgp.
  2:{ rewrite apply_rejected in Happly by done. injection Happly as <- <-.
      repeat split; try done. }
  destruct (save_and_split_loop (_constraints problem) h)
    as (h1 & Hloop & Hn1 & Hout & Hin & Hold).
  rewrite (apply_accepted _ _ _ Hdgp Hloop) in Happly.
  destruct (Canonicalization_apply _ _ _) as [[e|[equiv_problem inverse_data]] st] eqn:Hengine.
  - injection Happly as <- <-. simpl.
    split; [done|]. split; [done|]. split; [|by apply Hout].
    intros e' [= <-] _. split; [by eauto|].
    intros c Hc. destruct (Hin c Hc) as (Ha & _). by rewrite Ha, (Hold Hnd c Hc).
  - destruct (restore_loop (_constraints problem)
                {| constraint_at := constraint_at h1; next_ref := fresh_ref st |} Hnd)
      as (h2 & Hloop2 & Hn2 & Hout2 & Hin2).
    { intros c Hc. simpl. by destruct (Hin c Hc) as (_ & ? & _). }
    rewrite Hloop2 in Happly. injection Happly as <- <-.
    split; [done|]. split; [|split; [done|]].
    + intros res _ c Hc. destruct (Hin2 c Hc) as (Ha & Ho & _). simpl in Ha.
      rewrite (Hold Hnd c Hc) in Ha. split; congruence.
    + intros c Hc. rewrite Hout2 by done. simpl. by apply Hout.
Qed.

(** X1: a problem that lists one constraint object twice (lines 70-82 visit
    it twice): the first loop saves the split list over the original one,
    and the second loop finds [_old_args] deleted at its second visit.
    When the engine returns, [apply] raises [AttributeError] and leaves the
    constraint with [lhs, rhs] as its argument list. *)
Theorem apply_constraint_listed_twice (problem : Problem) (h : heap) (c : positive)
    (equiv_problem : NewProblem) (inverse_data : G) (st : canon_state) :
  _constraints problem = [c; c] →
  is_dgp problem (constraint_at h) = true →
  Canonicalization_apply problem
    (constraint_at (for_each (_constraints problem) save_and_split h).2)
    {| self := __init__ ∅; fresh_ref := next_ref h |} = (inr (equiv_problem, inverse_data), st) →
  ∃ h', apply problem h = (inl (AttributeError "_old_args"), h') ∧
    args (constraint_at h' c) = [_lhs (constraint_at h c); _rhs (constraint_at h c)] ∧
    _old_args (constraint_at h' c) = None.
Proof.
  intros Hl Hdgp Hengine.
  destruct (save_and_split_twice c h) as (h1 & Hloop & Hn1 & Hold). rewrite <-Hl in Hloop.
  rewrite Hloop in Hengine. simpl in Hengine.
  rewrite (apply_accepted problem h h1 Hdgp Hloop), Hn1, Hengine, Hl.
  destruct (restore_twice c {| constraint_at := constraint_at h1; next_ref := fresh_ref st |}
              [_lhs (constraint_at h c); _rhs (constraint_at h c)])
    as (h2 & -> & Ha2 & Ho2); [done|].
  by exists h2.
Qed.
End apply_properties.

(** C10: [apply] builds its instance with [DgpCanonMethods()], whose cache
    and own dict are empty, and runs the engine from that instance only:
    two engines that agree on runs from the fresh instance give the same
    [apply], whatever they do from an instance with entries.  Membership
    and lookup are the same on every instance, whatever its own dict and
    its cache hold: they read the shared table ([self_variable_canon] is
    the method of the instance the lookup was made on), and the first
    lookup of any variable on a fresh instance creates its variable. *)
Theorem apply_uses_fresh_instance `{Expr_key} `{Discipline} {G : Type}
    (E1 E2 : Canonicalization G) :
  (∀ problem store n,
     @Canonicalization_apply G E1 problem store {| self := __init__ ∅; fresh_ref := n |} =
     @Canonicalization_apply G E2 problem store {| self := __init__ ∅; fresh_ref := n |}) →
  (∀ problem h, @apply _ G E1 problem h = @apply _ G E2 problem h) ∧
  _variables (__init__ ∅) = ∅ ∧
  dict_items (__init__ ∅) = ∅ ∧
  (∀ (self1 self2 : DgpCanonMethods) (key : atom_kind),
     __contains__ self1 key = dict_contains CANON_METHODS key ∧
     __contains__ self1 key = __contains__ self2 key ∧
     __getitem__ self1 key = __getitem__ self2 key) ∧
  (∀ (expr : Expr) (args : list Expr) (n : positive),
     variable_canon expr args {| self := __init__ ∅; fresh_ref := n |} =
       (inr (new_Variable n (expr_shape expr) (expr_id expr), []),
        {| self := set_variable (dict_key expr)
                     (new_Variable n (expr_shape expr) (expr_id expr)) (__init__ ∅);
           fresh_ref := Pos.succ n |})).
Proof.
  intros Hagree. split; [|repeat split].
  intros problem h.
  destruct (is_dgp problem (constraint_at h)) eqn:Hdgp.
  - destruct (save_and_split_loop (_constraints problem) h) as (h1 & Hloop & _).
    rewrite (@apply_accepted _ G E1 _ _ _ Hdgp Hloop).
    rewrite (@apply_accepted _ G E2 _ _ _ Hdgp Hloop).
    by rewrite Hagree.
  - by rewrite !apply_rejected.
Qed.

(** * Properties of [Gp2Dcp.invert] *)

Section invert_properties.
Context {ndarray G : Type} `{!Numeric ndarray} `{!Settings}
        `{!Canonicalization_inverse G ndarray}.

(** C3: when the status that the generic inverse step hands on is in
    [INF_OR_UNB] (and so not a solution-present status), [invert]
    returns a solution whose optimal value is the exponential of the
    log-space optimal value; its primal values are the exponentiated
    ones, status and dual values are handed on, and the state of the
    original problem is as before: no value was installed. *)
Theorem invert_inf_or_unb (solution : Solution ndarray) (inverse_data : InverseData G)
    (p : Problem_state ndarray) :
  status (Canonicalization_invert solution inverse_data) ∈ INF_OR_UNB →
  status (Canonicalization_invert solution inverse_data) ∉ SOLUTION_PRESENT →
  ∃ result,
    invert solution inverse_data p = (inr result, p) ∧
    opt_val result = np_exp (opt_val (Canonicalization_invert solution inverse_data)) ∧
    status result = status (Canonicalization_invert solution inverse_data) ∧
    primal_vars result =
      np_exp <$> primal_vars (Canonicalization_invert solution inverse_data) ∧
    dual_vars result = dual_vars (Canonicalization_invert solution inverse_data).
Proof.
  intros Hinf Hnot. eexists. unfold invert. simpl.
  rewrite decide_False by done. rewrite decide_True by done.
  split; [reflexivity|]. done.
Qed.

(** C7: when the status that the generic inverse step hands on is in
    neither list, [invert] returns the solution of the generic step with
    its primal values exponentiated one by one: optimal value, status
    and dual values are those of the generic step, and the state of the
    original problem is as before. *)
Theorem invert_other_status (solution : Solution ndarray) (inverse_data : InverseData G)
    (p : Problem_state ndarray) :
  status (Canonicalization_invert solution inverse_data) ∉ SOLUTION_PRESENT →
  status (Canonicalization_invert solution inverse_data) ∉ INF_OR_UNB →
  ∃ result,
    invert solution inverse_data p = (inr result, p) ∧
    opt_val result = opt_val (Canonicalization_invert solution inverse_data) ∧
    status result = status (Canonicalization_invert solution inverse_data) ∧
    dual_vars result = dual_vars (Canonicalization_invert solution inverse_data) ∧
    ∀ vid, primal_vars result !! vid =
             np_exp <$> primal_vars (Canonicalization_invert solution inverse_data) !! vid.
Proof.
  intros Hnot1 Hnot2. eexists. unfold invert. simpl.
  rewrite !decide_False by done.
  split; [reflexivity|]. repeat split. intros vid. simpl. apply lookup_fmap.
Qed.

End invert_properties.

(** * Properties of the generic rewrite engine *)

Lemma bind_inl {S A B} (m : py S A) (f : A → py S B) (s s' : S) (e : exn) :
  m s = (inl e, s') → (m ≫= f) s = (inl e, s').
Proof. intros Hm. unfold mbind, py_bind. by rewrite Hm. Qed.

Lemma bind_inr {S A B} (m : py S A) (f : A → py S B) (s s' : S) (a : A) :
  m s = (inr a, s') → (m ≫= f) s = f a s'.
Proof. intros Hm. unfold mbind, py_bind. by rewrite Hm. Qed.

Lemma bind_inv {S A B} (m : py S A) (f : A → py S B) (s s2 : S) (r : exn + B) :
  (m ≫= f) s = (r, s2) →
  (∃ e, m s = (inl e, s2) ∧ r = inl e) ∨
  (∃ a s1, m s = (inr a, s1) ∧ f a s1 = (r, s2)).
Proof.
  unfold mbind, py_bind. destruct (m s) as [[e|a] s1].
  - intros [= <- <-]. left. eauto.
  - intros Hf. right. eauto.
Qed.

Lemma Expr_ind_args (P : Expr → Prop) :
  (∀ r type i shape attrs args,
     Forall P args → P (mkExpr r type i shape attrs args)) →
  ∀ expr, P expr.
Proof.
  intros Hstep. fix IH 1. intros [r type i shape attrs args]. apply Hstep.
  induction args as [|arg args IHargs]; constructor; [apply IH | apply IHargs].
Qed.

Section engine_properties.
Context `{Expr_key} `{Canonicalizers}.

Lemma canonicalize_tree_unfold (expr : Expr) :
  canonicalize_tree expr =
    ('(canon_args, constrs) ← canonicalize_args canonicalize_tree (expr_args expr);
     method ← lookup_method (expr_type expr);
     '(canon_expr, c) ← call_method method expr canon_args;
     mret (canon_expr, constrs ++ c)).
Proof. by destruct expr. Qed.

Lemma canonicalize_args_cons (rewrite : Expr → py canon_state (Expr * list NewConstraint))
    (arg : Expr) (l : list Expr) :
  canonicalize_args rewrite (arg :: l) =
    ('(canon_arg, c) ← rewrite arg;
     '(canon_args, constrs) ← canonicalize_args rewrite l;
     mret (canon_arg :: canon_args, c ++ constrs)).
Proof. reflexivity. Qed.

(** A lookup of a kind that the table lacks raises [KeyError]. *)
Lemma lookup_method_absent (key : atom_kind) (st : canon_state) :
  CANON_METHODS !! key = None →
  lookup_method key st = (inl (KeyError key), st).
Proof.
  intros Hkey. unfold lookup_method. rewrite getitem_table, Hkey; [done|].
  intros ->. discriminate.
Qed.

Lemma canonicalize_args_fails (rewrite : Expr → py canon_state (Expr * list NewConstraint))
    (l : list Expr) (arg : Expr) :
  arg ∈ l →
  (∀ st, ∃ e st', rewrite arg st = (inl e, st')) →
  ∀ st, ∃ e st', canonicalize_args rewrite l st = (inl e, st').
Proof.
  intros Hin Hfail. induction l as [|x l IH]; [by apply elem_of_nil in Hin|].
  intros st. rewrite canonicalize_args_cons.
  destruct (rewrite x st) as [[e|[canon_arg c]] st1] eqn:Hx.
  { exists e, st1. by apply bind_inl. }
  rewrite (bind_inr _ _ _ _ _ Hx). simpl.
  apply elem_of_cons in Hin as [->|Hin].
  { destruct (Hfail st) as (e & st' & Hf). congruence. }
  destruct (IH Hin st1) as (e & st' & Hl).
  exists e, st'. by apply bind_inl.
Qed.

(** The walk fails on every expression in which a kind occurs that the
    table lacks. *)
Lemma canonicalize_tree_fails (key : atom_kind) (expr : Expr) :
  CANON_METHODS !! key = None →
  occurs key expr →
  ∀ st, ∃ e st', canonicalize_tree expr st = (inl e, st').
Proof.
  intros Hkey. induction 1 as [expr Htype|expr arg Hin _ IH]; intros st;
    rewrite canonicalize_tree_unfold.
  - destruct (canonicalize_args canonicalize_tree (expr_args expr) st)
      as [[e|[canon_args constrs]] st1] eqn:Hargs.
    { exists e, st1. by apply bind_inl. }
    rewrite (bind_inr _ _ _ _ _ Hargs). simpl.
    exists (KeyError key), st1. apply bind_inl. rewrite Htype.
    by apply lookup_method_absent.
  - destruct (canonicalize_args_fails canonicalize_tree _ arg Hin IH st) as (e & st' & Hl).
    exists e, st'. by apply bind_inl.
Qed.

Lemma canonicalize_constraints_cons (store : positive → Constraint) (c : positive)
    (l : list positive) :
  canonicalize_constraints store (c :: l) =
    ('(canon_args, aux) ← canonicalize_args canonicalize_tree (args (store c));
     rest ← canonicalize_constraints store l;
     mret (aux ++ {| new_op := constr_op (store c); new_args := canon_args |} :: rest)).
Proof. reflexivity. Qed.

Lemma canonicalize_constraints_fails (store : positive → Constraint) (l : list positive)
    (c : positive) (arg : Expr) :
  c ∈ l → arg ∈ args (store c) →
  (∀ st, ∃ e st', canonicalize_tree arg st = (inl e, st')) →
  ∀ st, ∃ e st', canonicalize_constraints store l st = (inl e, st').
Proof.
  intros Hc Harg Hfail. induction l as [|x l IH]; [by apply elem_of_nil in Hc|].
  intros st. rewrite canonicalize_constraints_cons.
  destruct (canonicalize_args canonicalize_tree (args (store x)) st)
    as [[e|[canon_args aux]] st1] eqn:Hx.
  { exists e, st1. by apply bind_inl. }
  rewrite (bind_inr _ _ _ _ _ Hx). simpl.
  apply elem_of_cons in Hc as [->|Hc].
  { destruct (canonicalize_args_fails canonicalize_tree _ arg Harg Hfail st)
      as (e & st' & Hf). congruence. }
  destruct (IH Hc st1) as (e & st' & Hl).
  exists e, st'. by apply bind_inl.
Qed.

Lemma lookup_method_inv (key : atom_kind) (st st' : canon_state) (r : exn + canon_method) :
  lookup_method key st = (r, st') →
  st' = st ∧
  match r with
  | inl e => e = KeyError key ∧ CANON_METHODS !! key = None
  | inr method => method ≠ table_value PyNone
  end.
Proof.
  unfold lookup_method. intros [= <- <-]. split; [done|].
  destruct (__getitem__ (self st) key) as [e|method] eqn:Hget.
  - destruct (decide (key = Variable_)) as [->|Hkey]; [by rewrite getitem_Variable in Hget|].
    rewrite getitem_table in Hget by done.
    by destruct (CANON_METHODS !! key); simplify_eq.
  - intros ->. by apply getitem_not_None in Hget.
Qed.

(** When no canonicalizer raises, a call of a looked-up method returns. *)
Lemma call_method_returns (method : canon_method) (expr : Expr) (canon_args : list Expr)
    (st : canon_state) :
  canonicalizers_return →
  method ≠ table_value PyNone →
  ∃ r st', call_method method expr canon_args st = (inr r, st').
Proof.
  intros Hret Hmethod. destruct method as [c|]; simpl.
  - destruct (Hret c expr canon_args (fresh_ref st)) as (r & n' & Hcall).
    exists r, {| self := self st; fresh_ref := n' |}.
    destruct c; try (unfold with_fresh_ref; by rewrite Hcall). done.
  - unfold variable_canon. destruct (_variables (self st) !! dict_key expr); eauto.
Qed.

Lemma canonicalize_args_error (l : list Expr) :
  Forall (λ arg, ∀ st e st', canonicalize_tree arg st = (inl e, st') →
                   ∃ k, e = KeyError k ∧ CANON_METHODS !! k = None) l →
  ∀ st e st', canonicalize_args canonicalize_tree l st = (inl e, st') →
    ∃ k, e = KeyError k ∧ CANON_METHODS !! k = None.
Proof.
  induction 1 as [|x l Hx _ IH]; intros st e st'; [done|].
  rewrite canonicalize_args_cons.
  intros [(e' & Hx' & [= ->])|([canon_arg c] & st1 & Hx' & Hrest)]%bind_inv; [by eauto|].
  apply bind_inv in Hrest as [(e' & Hl & [= ->])|([canon_args constrs] & st2 & _ & Hr)];
    [by eauto|done].
Qed.

(** When no canonicalizer raises, the only error of the walk is the
    [KeyError] of a kind that the table lacks. *)
Lemma canonicalize_tree_error (expr : Expr) :
  canonicalizers_return →
  ∀ st e st', canonicalize_tree expr st = (inl e, st') →
    ∃ k, e = KeyError k ∧ CANON_METHODS !! k = None.
Proof.
  intros Hret. induction expr as [r type i shape attrs args IH] using Expr_ind_args.
  intros st e st'. rewrite canonicalize_tree_unfold. simpl.
  intros [(e' & Hargs & [= ->])|([canon_args constrs] & st1 & _ & Hrest)]%bind_inv.
  { by eapply canonicalize_args_error. }
  apply bind_inv in Hrest as [(e' & Hlook & [= ->])|(method & st2 & Hlook & Hrest)].
  { apply lookup_method_inv in Hlook as [_ [-> Hk]]. eauto. }
  apply lookup_method_inv in Hlook as [_ Hmethod].
  destruct (call_method_returns method (mkExpr r type i shape attrs args) canon_args st2
              Hret Hmethod) as ([canon_expr c] & st3 & Hcall).
  apply bind_inv in Hrest as [(e' & Hcall' & _)|([canon_expr' c'] & st4 & _ & Hr)];
    [congruence|done].
Qed.

Lemma canonicalize_constraints_error (store : positive → Constraint) (l : list positive) :
  canonicalizers_return →
  ∀ st e st', canonicalize_constraints store l st = (inl e, st') →
    ∃ k, e = KeyError k ∧ CANON_METHODS !! k = None.
Proof.
  intros Hret. induction l as [|c l IH]; intros st e st'; [done|].
  rewrite canonicalize_constraints_cons.
  intros [(e' & Hargs & [= ->])|([canon_args aux] & st1 & _ & Hrest)]%bind_inv.
  { eapply canonicalize_args_error; [|done].
    apply Forall_forall. intros arg _. by apply canonicalize_tree_error. }
  apply bind_inv in Hrest as [(e' & Hl & [= ->])|(rest & st2 & _ & Hr)]; [by eauto|done].
Qed.

(** The engine of the spec fails when a kind that the table lacks occurs
    in the objective or in an operand of a constraint, and, when no
    canonicalizer raises, its only error is such a [KeyError]. *)
Lemma Canonicalization_spec_fails (key : atom_kind) (problem : Problem)
    (store : positive → Constraint) (st : canon_state) :
  CANON_METHODS !! key = None →
  (occurs key (objective problem) ∨
   ∃ c arg, c ∈ _constraints problem ∧ arg ∈ args (store c) ∧ occurs key arg) →
  ∃ e st', Canonicalization_spec problem store st = (inl e, st').
Proof.
  intros Hkey Hocc. unfold Canonicalization_spec.
  destruct (canonicalize_tree (objective problem) st)
    as [[e|[canon_objective constrs]] st1] eqn:Hobj.
  { exists e, st1. by apply bind_inl. }
  rewrite (bind_inr _ _ _ _ _ Hobj). simpl.
  destruct Hocc as [Hocc|(c & arg & Hc & Harg & Hocc)].
  { destruct (canonicalize_tree_fails key _ Hkey Hocc st) as (e & st' & Hf). congruence. }
  destruct (canonicalize_constraints_fails store _ c arg Hc Harg
              (canonicalize_tree_fails key arg Hkey Hocc) st1) as (e & st' & Hf).
  exists e, st'. by apply bind_inl.
Qed.

Lemma Canonicalization_spec_error (problem : Problem) (store : positive → Constraint)
    (st st' : canon_state) (e : exn) :
  canonicalizers_return →
  Canonicalization_spec problem store st = (inl e, st') →
  ∃ k, e = KeyError k ∧ CANON_METHODS !! k = None.
Proof.
  intros Hret. unfold Canonicalization_spec.
  intros [(e' & Hobj & [= ->])|([canon_objective constrs] & st1 & _ & Hrest)]%bind_inv.
  { by eapply canonicalize_tree_error. }
  apply bind_inv in Hrest as [(e' & Hl & [= ->])|(rest & st2 & _ & Hr)]; [|done].
  by eapply canonicalize_constraints_error.
Qed.
End engine_properties.

Section engine_run.
Context `{Expr_key} `{Canonicalizers}.

Lemma call_method_run (method : canon_method) (expr : Expr) (canon_args : list Expr)
    (st st' : canon_state) (r : exn + Expr * list NewConstraint) :
  call_method method expr canon_args st = (r, st') → rtc run_step st st'.
Proof.
  destruct method as [c|]; simpl.
  - assert (with_fresh_ref (call_canon c expr canon_args) st = (r, st') →
            rtc run_step st st') as Hcanon.
    { unfold with_fresh_ref. destruct (call_canon c expr canon_args (fresh_ref st)) as [r' n].
      intros [= <- <-]. apply rtc_once, step_new_objects. }
    destruct c; try exact Hcanon. intros [= <- <-]. apply rtc_refl.
  - intros Hcall. eapply rtc_once, step_variable_canon, Hcall.
Qed.

Lemma canonicalize_args_run (l : list Expr) :
  Forall (λ arg, ∀ st r st', canonicalize_tree arg st = (r, st') → rtc run_step st st') l →
  ∀ st r st', canonicalize_args canonicalize_tree l st = (r, st') → rtc run_step st st'.
Proof.
  induction 1 as [|x l Hx _ IH]; intros st r st'.
  { intros [= <- <-]. apply rtc_refl. }
  rewrite canonicalize_args_cons.
  intros [(e' & Hx' & _)|([canon_arg c] & st1 & Hx' & Hrest)]%bind_inv; [by eauto|].
  etrans; [by eapply Hx|].
  apply bind_inv in Hrest as [(e' & Hl & _)|([canon_args constrs] & st2 & Hl & Hr)];
    [by eauto|].
  injection Hr as <- <-. by eauto.
Qed.

(** A walk of the engine is a run on its instance: it reaches
    [_variables] through calls of the variable rule only. *)
Lemma canonicalize_tree_run (expr : Expr) :
  ∀ st r st', canonicalize_tree expr st = (r, st') → rtc run_step st st'.
Proof.
  induction expr as [ref type i shape attrs args IH] using Expr_ind_args.
  intros st r st'. rewrite canonicalize_tree_unfold. simpl.
  intros [(e' & Hargs & _)|([canon_args constrs] & st1 & Hargs & Hrest)]%bind_inv.
  { by eapply canonicalize_args_run. }
  etrans; [by eapply canonicalize_args_run|].
  apply bind_inv in Hrest as [(e' & Hlook & _)|(method & st2 & Hlook & Hrest)].
  { apply lookup_method_inv in Hlook as [-> _]. apply rtc_refl. }
  apply lookup_method_inv in Hlook as [-> _].
  apply bind_inv in Hrest as [(e' & Hcall & _)|([canon_expr c] & st3 & Hcall & Hr)].
  { by eapply call_method_run. }
  injection Hr as <- <-. by eapply call_method_run.
Qed.

Lemma call_method_Variable (self0 : DgpCanonMethods) (expr : Expr) (canon_args : list Expr) :
  expr_type expr = Variable_ →
  ∀ method, __getitem__ self0 (expr_type expr) = inr method →
    call_method method expr canon_args = variable_canon expr canon_args.
Proof. intros -> method. rewrite getitem_Variable. by intros [= <-]. Qed.

Lemma canonicalize_args_caches (l : list Expr) :
  Forall (λ arg, ∀ st r st', canonicalize_tree arg st = (inr r, st') →
            ∀ e, subexpr e arg → expr_type e = Variable_ →
              is_Some (_variables (self st') !! dict_key e)) l →
  ∀ st r st', canonicalize_args canonicalize_tree l st = (inr r, st') →
    ∀ arg e, arg ∈ l → subexpr e arg → expr_type e = Variable_ →
      is_Some (_variables (self st') !! dict_key e).
Proof.
  induction 1 as [|x l Hx Hl IH]; intros st r st' Hwalk arg e Harg Hsub He.
  { by apply elem_of_nil in Harg. }
  rewrite canonicalize_args_cons in Hwalk.
  apply bind_inv in Hwalk as [(e' & _ & [=])|([canon_arg c] & st1 & Hx' & Hrest)].
  apply bind_inv in Hrest as [(e' & _ & [=])|([canon_args constrs] & st2 & Hl' & Hr)].
  injection Hr as <- <-.
  apply elem_of_cons in Harg as [->|Harg]; [|by eauto].
  destruct (Hx st _ st1 Hx' e Hsub He) as [v Hv]. exists v.
  eapply run_keeps; [|done]. eapply canonicalize_args_run; [|done].
  apply Forall_forall. intros a _. apply canonicalize_tree_run.
Qed.

(** After a walk that returned, the cache has an entry for every variable
    node of the expression. *)
Lemma canonicalize_tree_caches (expr : Expr) :
  ∀ st r st', canonicalize_tree expr st = (inr r, st') →
    ∀ e, subexpr e expr → expr_type e = Variable_ →
      is_Some (_variables (self st') !! dict_key e).
Proof.
  induction expr as [ref type i shape attrs args IH] using Expr_ind_args.
  intros st r st' Hwalk e Hsub He. rewrite canonicalize_tree_unfold in Hwalk. simpl in Hwalk.
  apply bind_inv in Hwalk as [(e' & _ & [=])|([canon_args constrs] & st1 & Hargs & Hrest)].
  apply bind_inv in Hrest as [(e' & _ & [=])|(method & st2 & Hlook & Hrest)].
  pose proof Hlook as [-> _]%lookup_method_inv.
  apply bind_inv in Hrest as [(e' & _ & [=])|([canon_expr c] & st3 & Hcall & Hr)].
  injection Hr as <- <-.
  inversion Hsub as [Heq|t arg Harg Hsub' Heq]; subst.
  - unfold lookup_method in Hlook. injection Hlook as Hget.
    rewrite (call_method_Variable (self st1) _ canon_args He method Hget) in Hcall.
    eexists. by eapply variable_canon_records.
  - simpl in Harg.
    destruct (canonicalize_args_caches args IH st _ st1 Hargs arg e Harg Hsub' He) as [v Hv].
    exists v. eapply run_keeps; [|done]. by eapply call_method_run.
Qed.

(** X2: identity sharing, with the engine of the spec: after a walk of an
    expression that returned, two variable nodes of the expression with
    the same key have one log-space variable in the cache, and every
    later call of the variable rule of the run for either of them returns
    that object and creates nothing. *)
Theorem walk_shares_log_variable (expr e1 e2 : Expr) (st0 st1 : canon_state)
    (r : Expr * list NewConstraint) :
  canonicalize_tree expr st0 = (inr r, st1) →
  subexpr e1 expr → subexpr e2 expr →
  expr_type e1 = Variable_ → expr_type e2 = Variable_ →
  dict_key e1 = dict_key e2 →
  ∃ v, _variables (self st1) !! dict_key e1 = Some v ∧
       _variables (self st1) !! dict_key e2 = Some v ∧
       ∀ st2 args1 args2, rtc run_step st1 st2 →
         variable_canon e1 args1 st2 = (inr (v, []), st2) ∧
         variable_canon e2 args2 st2 = (inr (v, []), st2).
Proof.
  intros Hwalk Hsub1 Hsub2 He1 He2 Hkey.
  destruct (canonicalize_tree_caches expr st0 r st1 Hwalk e1 Hsub1 He1) as [v Hv].
  exists v. split; [done|]. split; [by rewrite <-Hkey|].
  intros st2 args1 args2 Hrun.
  split; apply variable_canon_hit; [|rewrite <-Hkey]; by eapply run_keeps.
Qed.
End engine_run.

Section unsupported_kind.
Context `{Expr_key} `{Canonicalizers} `{Discipline}.

(** C6: for a kind that the table lacks (it is then not the variable
    kind), (1) the lookup on any instance raises [KeyError] for that kind;
    (2) whatever the generic engine is, when its walk raises that error,
    [apply] raises it and returns no problem; (3) with the engine of the
    spec, [apply] on a problem in which the kind occurs (in the objective
    or in an operand of a constraint) raises and returns no problem, and
    when the problem is accepted and no canonicalizer raises, the error
    is the [KeyError] of a kind that the table lacks. *)
Theorem unsupported_kind_fails (key : atom_kind) :
  CANON_METHODS !! key = None →
  key ≠ Variable_ ∧
  (∀ self : DgpCanonMethods, __getitem__ self key = inl (KeyError key)) ∧
  (∀ (G : Type) (E : Canonicalization G) problem h h1 st,
     is_dgp problem (constraint_at h) = true →
     for_each (_constraints problem) save_and_split h = (inr tt, h1) →
     @Canonicalization_apply G E problem (constraint_at h1)
       {| self := __init__ ∅; fresh_ref := next_ref h1 |} = (inl (KeyError key), st) →
     ∃ h', @apply _ G E problem h = (inl (KeyError key), h')) ∧
  (∀ problem h, mentions key problem h →
     ∃ e h', @apply _ unit Canonicalization_spec problem h = (inl e, h') ∧
       (is_dgp problem (constraint_at h) = true → canonicalizers_return →
        ∃ k, e = KeyError k ∧ CANON_METHODS !! k = None)).
Proof.
  intros Hkey.
  assert (key ≠ Variable_) as Hvar by (intros ->; discriminate).
  split; [done|]. split; [|split].
  - intros self. by rewrite getitem_table, Hkey.
  - intros G E problem h h1 st Hdgp Hloop Hengine. eexists.
    by eapply apply_engine_raises.
  - intros problem h Hmentions.
    destruct (is_dgp problem (constraint_at h)) eqn:Hdgp.
    2:{ eexists _, _. split; [by apply apply_rejected|]. done. }
    destruct (save_and_split_loop (_constraints problem) h)
      as (h1 & Hloop & Hn1 & Hout & Hin & _).
    destruct (Canonicalization_spec_fails key problem (constraint_at h1)
                {| self := __init__ ∅; fresh_ref := next_ref h1 |} Hkey)
      as (e & st' & Hengine).
    { destruct Hmentions as [Hobj|(c & Hc & Hocc)]; [by left|]. right.
      destruct (Hin c Hc) as (Ha & _).
      destruct Hocc as [Hocc|Hocc].
      - exists c, (_lhs (constraint_at h c)). rewrite Ha. repeat split; [done|by left|done].
      - exists c, (_rhs (constraint_at h c)). rewrite Ha.
        repeat split; [done|by right; left|done]. }
    exists e, {| constraint_at := constraint_at h1; next_ref := fresh_ref st' |}.
    split; [by apply (apply_engine_raises (Canonicalization0 := Canonicalization_spec))|].
    intros _ Hret. by eapply Canonicalization_spec_error.
Qed.
End unsupported_kind.

(** * Further properties of the rewrite table and of the variable rule *)

(** X3: membership and lookup agree on every instance: a key that
    [__contains__] reports present is looked up without error and its
    rule is not [None]; a key that it reports absent makes [__getitem__]
    raise [KeyError] for that key. *)
Theorem contains_agrees_with_getitem (self : DgpCanonMethods) (key : atom_kind) :
  (__contains__ self key = true ∧
   ∃ method, __getitem__ self key = inr method ∧ method ≠ table_value PyNone) ∨
  (__contains__ self key = false ∧ __getitem__ self key = inl (KeyError key)).
Proof.
  unfold __contains__, dict_contains.
  destruct (CANON_METHODS !! key) as [c|] eqn:Hlook.
  - left. split; [apply bool_decide_eq_true; by eexists|].
    destruct (__getitem__ self key) as [e|method] eqn:Hget.
    + exfalso. destruct (decide (key = Variable_)) as [->|Hkey].
      * by rewrite getitem_Variable in Hget.
      * rewrite getitem_table in Hget by done. by rewrite Hlook in Hget.
    + exists method. split; [done|]. intros ->. by eapply getitem_not_None.
  - right. split; [apply bool_decide_eq_false; by intros [? ?]|].
    rewrite getitem_table, Hlook; [done|]. intros ->. discriminate.
Qed.

Section variable_rule_invariants.
Context `{Expr_key}.

Lemma forward_step_cache_ok (st st' : canon_state) :
  forward_step st st' →
  (∀ k v, _variables (self st) !! k = Some v →
     (expr_ref v < fresh_ref st)%positive ∧ expr_type v = Variable_ ∧
     expr_attributes v = [] ∧ expr_args v = []) →
  (∀ k1 k2 v1 v2, _variables (self st) !! k1 = Some v1 →
     _variables (self st) !! k2 = Some v2 → expr_ref v1 = expr_ref v2 → k1 = k2) →
  (∀ k v, _variables (self st') !! k = Some v →
     (expr_ref v < fresh_ref st')%positive ∧ expr_type v = Variable_ ∧
     expr_attributes v = [] ∧ expr_args v = []) ∧
  (∀ k1 k2 v1 v2, _variables (self st') !! k1 = Some v1 →
     _variables (self st') !! k2 = Some v2 → expr_ref v1 = expr_ref v2 → k1 = k2).
Proof.
  intros [expr args st0 r st1 Hcall|st0 n Hle] Hold Hinj.
  - unfold variable_canon in Hcall.
    destruct (_variables (self st0) !! dict_key expr) as [w|] eqn:Hlook.
    { injection Hcall as <- <-. done. }
    injection Hcall as <- <-. simpl. split.
    + intros k v [[<- <-]|[Hne Hk]]%lookup_insert_Some.
      * simpl. repeat split. lia.
      * destruct (Hold k v Hk) as (Hlt & Ht & Ha & Hg). repeat split; try done. lia.
    + intros k1 k2 v1 v2 [[<- <-]|[Hne1 Hk1]]%lookup_insert_Some
        [[<- <-]|[Hne2 Hk2]]%lookup_insert_Some Href; try done.
      * destruct (Hold k2 v2 Hk2) as (Hlt & _). simpl in Href. lia.
      * destruct (Hold k1 v1 Hk1) as (Hlt & _). simpl in Href. lia.
      * by eapply Hinj.
  - simpl. split; [|done].
    intros k v Hk. destruct (Hold k v Hk) as (Hlt & Ht & Ha & Hg). repeat split; try done. lia.
Qed.

(** X4: the cache stays injective: in a run that starts from a new instance
    and hands out references in increasing order, every cached object is
    an attribute-free variable leaf created during the run (its reference
    is below the allocator), and two keys never share an object: two
    distinct original variables are never merged into one log-space
    variable. *)
Theorem cache_never_merges_variables (items : gmap atom_kind canon_value) (n : positive)
    (st : canon_state) :
  rtc forward_step {| self := __init__ items; fresh_ref := n |} st →
  (∀ k v, _variables (self st) !! k = Some v →
     (n ≤ expr_ref v < fresh_ref st)%positive ∧ expr_type v = Variable_ ∧
     expr_attributes v = [] ∧ expr_args v = []) ∧
  (∀ k1 k2 v1 v2, _variables (self st) !! k1 = Some v1 →
     _variables (self st) !! k2 = Some v2 → expr_ref v1 = expr_ref v2 → k1 = k2) ∧
  (n ≤ fresh_ref st)%positive.
Proof.
  intros Hrun.
  assert (((∀ k v, _variables (self st) !! k = Some v →
              (expr_ref v < fresh_ref st)%positive ∧ expr_type v = Variable_ ∧
              expr_attributes v = [] ∧ expr_args v = []) ∧
           (∀ k1 k2 v1 v2, _variables (self st) !! k1 = Some v1 →
              _variables (self st) !! k2 = Some v2 → expr_ref v1 = expr_ref v2 → k1 = k2)) ∧
          (n ≤ fresh_ref st)%positive ∧
          (∀ k v, _variables (self st) !! k = Some v → (n ≤ expr_ref v)%positive))
    as ((Hok & Hinj) & Hle & Hlow).
  { revert st Hrun. apply rtc_ind_r; [|intros st1 st Hrun Hstep IH].
    - simpl. repeat split; try done; try lia; intros *; rewrite lookup_empty; done.
    - destruct IH as ((Hok & Hinj) & Hle & Hlow).
      split; [by eapply forward_step_cache_ok|].
      destruct Hstep as [expr args st0 r st2 Hcall|st0 k Hk].
      + unfold variable_canon in Hcall.
        destruct (_variables (self st0) !! dict_key expr) as [w|] eqn:Hlook;
          injection Hcall as <- <-; [done|]. simpl. split; [lia|].
        intros k v [[<- <-]|[_ Hk]]%lookup_insert_Some; [done|by eauto].
      + simpl. split; [lia|done]. }
  split; [|done]. intros k v Hk. destruct (Hok k v Hk) as (? & ? & ? & ?).
  specialize (Hlow k v Hk). repeat split; done.
Qed.


End variable_rule_invariants.

(** * Further properties of [Gp2Dcp.apply] and [Gp2Dcp.invert] *)

Lemma restore_loop_frame (l : list positive) (h h' : heap) (r : exn + unit) :
  for_each l restore h = (r, h') →
  next_ref h' = next_ref h ∧
  ∀ c, _lhs (constraint_at h' c) = _lhs (constraint_at h c) ∧
       _rhs (constraint_at h' c) = _rhs (constraint_at h c) ∧
       constr_op (constraint_at h' c) = constr_op (constraint_at h c) ∧
       (c ∉ l → constraint_at h' c = constraint_at h c).
Proof.
  revert h. induction l as [|x l IH]; intros h.
  { intros [= <- <-]. done. }
  rewrite for_each_cons, restore_at.
  destruct (_old_args (constraint_at h x)) as [old|] eqn:Hold.
  2:{ intros [= <- <-]. done. }
  intros [Hn Hframe]%IH. split; [done|]. intros c. simpl in Hframe.
  destruct (Hframe c) as (Hl & Hr & Hop & Hout). rewrite Hl, Hr, Hop.
  destruct (decide (x = c)) as [->|Hne].
  - rewrite !fn_lookup_alter. repeat split. intros Hc. exfalso. apply Hc. by left.
  - rewrite !fn_lookup_alter_ne by done. repeat split.
    intros [_ Hc]%not_elem_of_cons. rewrite Hout by done. by rewrite !fn_lookup_alter_ne.
Qed.

Lemma save_and_split_loop_frame (l : list positive) (h : heap) :
  ∃ h1, for_each l save_and_split h = (inr tt, h1) ∧
    next_ref h1 = next_ref h ∧
    ∀ c, _lhs (constraint_at h1 c) = _lhs (constraint_at h c) ∧
         _rhs (constraint_at h1 c) = _rhs (constraint_at h c) ∧
         constr_op (constraint_at h1 c) = constr_op (constraint_at h c) ∧
         (c ∉ l → constraint_at h1 c = constraint_at h c).
Proof.
  destruct (save_and_split_loop l h) as (h1 & Hloop & Hn & Hout & Hin & _).
  exists h1. split; [done|]. split; [done|]. intros c.
  destruct (decide (c ∈ l)) as [Hc|Hc].
  - destruct (Hin c Hc) as (_ & _ & Hop & Hl & Hr). done.
  - by rewrite Hout.
Qed.

Section apply_outcomes.
Context `{Discipline} {G : Type} `{!Canonicalization G}.

(** The outcomes of [apply], for any constraint list. *)
Lemma apply_inv (problem : Problem) (h h' : heap) (r : exn + NewProblem * InverseData G) :
  apply problem h = (r, h') →
  if is_dgp problem (constraint_at h) then
    ∃ h1 res st,
      for_each (_constraints problem) save_and_split h = (inr tt, h1) ∧
      Canonicalization_apply problem (constraint_at h1)
        {| self := __init__ ∅; fresh_ref := next_ref h1 |} = (res, st) ∧
      match res with
      | inl e => r = inl e ∧
                 h' = {| constraint_at := constraint_at h1; next_ref := fresh_ref st |}
      | inr (equiv_problem, inverse_data) =>
          ∃ r2, for_each (_constraints problem) restore
                  {| constraint_at := constraint_at h1; next_ref := fresh_ref st |} = (r2, h') ∧
                r = match r2 with
                    | inl e => inl e
                    | inr _ => inr (equiv_problem,
                                    {| generic := inverse_data; _problem := problem;
                                       _canon_methods := self st |})
                    end
      end
  else r = inl (ValueError "The supplied problem is not log-log DCP.") ∧ h' = h.
Proof.
  intros Happly. destruct (is_dgp problem (constraint_at h)) eqn:Hdgp.
  2:{ rewrite apply_rejected in Happly by done. by injection Happly as <- <-. }
  destruct (save_and_split_loop (_constraints problem) h) as (h1 & Hloop & _).
  rewrite (apply_accepted _ _ _ Hdgp Hloop) in Happly.
  exists h1. destruct (Canonicalization_apply _ _ _) as [res st] eqn:Hengine.
  exists res, st. split; [done|]. split; [done|].
  destruct res as [e|[equiv_problem inverse_data]].
  - by injection Happly as <- <-.
  - destruct (for_each _ restore _) as [r2 h2] eqn:Hloop2.
    exists r2. destruct r2 as [e|[]]; by injection Happly as <- <-.
Qed.

(** X7: whatever the outcome of [apply] (rejection, an error of the engine, an
    error of the second loop, or a return) and whatever the constraint
    list (also with an object listed twice), no constraint object has its
    operands [_lhs], [_rhs] or its relation changed, and an object that
    the problem does not list is left exactly as it was. *)
Theorem apply_never_changes_operands (problem : Problem) (h : heap) (c : positive) :
  _lhs (constraint_at (apply problem h).2 c) = _lhs (constraint_at h c) ∧
  _rhs (constraint_at (apply problem h).2 c) = _rhs (constraint_at h c) ∧
  constr_op (constraint_at (apply problem h).2 c) = constr_op (constraint_at h c) ∧
  (c ∉ _constraints problem → constraint_at (apply problem h).2 c = constraint_at h c).
Proof.
  destruct (apply problem h) as [r h'] eqn:Happly. simpl.
  apply apply_inv in Happly.
  destruct (is_dgp problem (constraint_at h)); [|by destruct Happly as [_ ->]].
  destruct Happly as (h1 & res & st & Hloop & _ & Hres).
  destruct (save_and_split_loop_frame (_constraints problem) h) as (h1' & Hloop' & _ & Hframe).
  rewrite Hloop in Hloop'. injection Hloop' as <-.
  destruct res as [e|[equiv_problem inverse_data]].
  - destruct Hres as [_ ->]. simpl. apply Hframe.
  - destruct Hres as (r2 & [_ Hframe2]%restore_loop_frame & _).
    destruct (Hframe c) as (Hl & Hr & Hop & Hout).
    destruct (Hframe2 c) as (Hl2 & Hr2 & Hop2 & Hout2). simpl in *.
    repeat split; try congruence. intros Hc. rewrite Hout2, Hout; done.
Qed.

Lemma apply_returned_restored (problem : Problem) (h h' : heap)
    (res : NewProblem * InverseData G) :
  NoDup (_constraints problem) →
  apply problem h = (inr res, h') →
  restored problem h h'.
Proof.
  intros Hnd Happly. apply apply_inv in Happly.
  destruct (is_dgp problem (constraint_at h)); [|by destruct Happly].
  destruct Happly as (h1 & r & st & Hloop & _ & Hres).
  destruct (save_and_split_loop (_constraints problem) h)
    as (h1' & Hloop' & _ & _ & Hin & Hold).
  rewrite Hloop in Hloop'. injection Hloop' as <-.
  destruct r as [e|[equiv_problem inverse_data]]; [by destruct Hres|].
  destruct Hres as (r2 & Hloop2 & _).
  destruct (restore_loop (_constraints problem)
              {| constraint_at := constraint_at h1; next_ref := fresh_ref st |} Hnd)
    as (h2 & Hloop2' & _ & _ & Hin2).
  { intros c Hc. simpl. by destruct (Hin c Hc) as (_ & ? & _). }
  rewrite Hloop2 in Hloop2'. injection Hloop2' as _ <-.
  intros c Hc. destruct (Hin2 c Hc) as (Ha & Ho & _). simpl in Ha.
  rewrite (Hold Hnd c Hc) in Ha. split; congruence.
Qed.

(** X8: for a constraint list without repetition, [apply] returns exactly
    when the problem is accepted and the engine returns.  It then returns
    the problem of the engine as it is, with inverse data that hold the
    record of the engine, the problem [apply] was called on, and the
    instance as the engine left it; the allocator is where the engine left
    it and the constraints are restored. *)
Theorem apply_returns_engine_result (problem : Problem) (h : heap) :
  NoDup (_constraints problem) →
  (∀ res h', apply problem h = (inr res, h') →
     is_dgp problem (constraint_at h) = true ∧
     _problem res.2 = problem ∧
     ∃ st, Canonicalization_apply problem
             (constraint_at (for_each (_constraints problem) save_and_split h).2)
             {| self := __init__ ∅; fresh_ref := next_ref h |}
           = (inr (res.1, generic res.2), st) ∧
           _canon_methods res.2 = self st ∧ next_ref h' = fresh_ref st) ∧
  (∀ equiv_problem inverse_data st,
     is_dgp problem (constraint_at h) = true →
     Canonicalization_apply problem
       (constraint_at (for_each (_constraints problem) save_and_split h).2)
       {| self := __init__ ∅; fresh_ref := next_ref h |}
     = (inr (equiv_problem, inverse_data), st) →
     ∃ h', apply problem h =
             (inr (equiv_problem,
                   {| generic := inverse_data; _problem := problem;
                      _canon_methods := self st |}), h') ∧
           next_ref h' = fresh_ref st ∧ restored problem h h').
Proof.
  intros Hnd.
  destruct (save_and_split_loop (_constraints problem) h)
    as (h1 & Hloop & Hn1 & _ & Hin & _).
  rewrite Hloop. simpl. split.
  - intros res h' Happly. apply apply_inv in Happly.
    destruct (is_dgp problem (constraint_at h)); [|by destruct Happly].
    destruct Happly as (h1' & r & st & Hloop' & Hengine & Hres).
    rewrite Hloop in Hloop'. injection Hloop' as <-. rewrite Hn1 in Hengine.
    split; [done|].
    destruct r as [e|[equiv_problem inverse_data]]; [by destruct Hres|].
    destruct Hres as (r2 & [Hn2 _]%restore_loop_frame & Hr).
    destruct r2 as [e|[]]; [done|]. injection Hr as ->. simpl.
    split; [done|]. exists st. by rewrite Hn2.
  - intros equiv_problem inverse_data st Hdgp Hengine. rewrite <-Hn1 in Hengine.
    destruct (restore_loop (_constraints problem)
                {| constraint_at := constraint_at h1; next_ref := fresh_ref st |} Hnd)
      as (h2 & Hloop2 & Hn2 & _).
    { intros c Hc. simpl. by destruct (Hin c Hc) as (_ & ? & _). }
    exists h2.
    assert (apply problem h =
              (inr (equiv_problem,
                    {| generic := inverse_data; _problem := problem;
                       _canon_methods := self st |}), h2)) as Happly.
    { by rewrite (apply_accepted _ _ _ Hdgp Hloop), Hengine, Hloop2. }
    split; [done|]. split; [done|]. by eapply apply_returned_restored.
Qed.
End apply_outcomes.

(** X9: a failed [apply] is not repaired by a later one: for a constraint
    list without repetition, when a first [apply] on an accepted problem
    raised (the engine raised) and a second [apply] on the heap it left
    returns, every constraint of the problem ends with [lhs, rhs] as its
    argument list and no [_old_args]: the second call saved and restored
    the split list, and the argument list from before the first call is
    lost. *)
Theorem apply_after_failed_apply `{Discipline} {G : Type} (E1 E2 : Canonicalization G)
    (problem : Problem) (h h1 h2 : heap) (e : exn) (res : NewProblem * InverseData G) :
  NoDup (_constraints problem) →
  is_dgp problem (constraint_at h) = true →
  @apply _ G E1 problem h = (inl e, h1) →
  @apply _ G E2 problem h1 = (inr res, h2) →
  ∀ c, c ∈ _constraints problem →
    args (constraint_at h2 c) = [_lhs (constraint_at h c); _rhs (constraint_at h c)] ∧
    _old_args (constraint_at h2 c) = None.
Proof.
  intros Hnd Hdgp Hfirst Hsecond c Hc.
  destruct (apply_returned_restored (Canonicalization0 := E2) problem h1 h2 res Hnd Hsecond c Hc)
    as [-> ->]. split; [|done].
  apply (apply_inv (Canonicalization0 := E1)) in Hfirst. rewrite Hdgp in Hfirst.
  destruct Hfirst as (hs & r & st & Hloop & _ & Hres).
  destruct (save_and_split_loop (_constraints problem) h)
    as (hs' & Hloop' & _ & _ & Hin & _).
  rewrite Hloop in Hloop'. injection Hloop' as <-.
  destruct r as [e'|[equiv_problem inverse_data]].
  - destruct Hres as [_ ->]. simpl. by destruct (Hin c Hc) as [-> _].
  - exfalso. destruct Hres as (r2 & Hloop2 & Hr).
    destruct (restore_loop (_constraints problem)
                {| constraint_at := constraint_at hs; next_ref := fresh_ref st |} Hnd)
      as (h2' & Hloop2' & _).
    { intros c' Hc'. simpl. by destruct (Hin c' Hc') as (_ & ? & _). }
    rewrite Hloop2 in Hloop2'. by injection Hloop2' as ->.
Qed.

Lemma restore_loop_missing (l : list positive) (c : positive) :
  c ∈ l →
  ∀ h, _old_args (constraint_at h c) = None →
    ∃ h', for_each l restore h = (inl (AttributeError "_old_args"), h').
Proof.
  induction l as [|x l IH]; intros Hc h Hnone; [by apply elem_of_nil in Hc|].
  rewrite for_each_cons, restore_at.
  destruct (_old_args (constraint_at h x)) as [old|] eqn:Hold; [|by eauto].
  apply elem_of_cons in Hc as [->|Hc]; [congruence|].
  apply IH; [done|]. simpl.
  destruct (decide (x = c)) as [->|Hne]; [by rewrite !fn_lookup_alter|].
  by rewrite !fn_lookup_alter_ne.
Qed.

Lemma restore_loop_repeated (l : list positive) :
  ¬ NoDup l →
  ∀ h, (∀ c, c ∈ l → is_Some (_old_args (constraint_at h c))) →
    ∃ h', for_each l restore h = (inl (AttributeError "_old_args"), h').
Proof.
  induction l as [|x l IH]; intros Hdup h Hsome; [by destruct Hdup; constructor|].
  rewrite for_each_cons, restore_at.
  destruct (Hsome x) as [old Hold]; [by left|]. rewrite Hold.
  destruct (decide (x ∈ l)) as [Hx|Hx].
  - apply (restore_loop_missing l x Hx). simpl. by rewrite !fn_lookup_alter.
  - apply IH.
    + intros Hnd. apply Hdup. by constructor.
    + intros c Hc. simpl. rewrite !fn_lookup_alter_ne by (intros ->; done).
      apply Hsome. by right.
Qed.

(** X11: [apply] needs the constraint objects of the problem to be pairwise
    distinct: when the problem is accepted, the engine returns, and some
    constraint object is listed more than once (anywhere in the list),
    [apply] raises [AttributeError] for [_old_args] from the second loop,
    and returns no problem. *)
Theorem apply_repeated_constraint_raises `{Discipline} {G : Type} `{!Canonicalization G}
    (problem : Problem) (h : heap) (equiv_problem : NewProblem) (inverse_data : G)
    (st : canon_state) :
  ¬ NoDup (_constraints problem) →
  is_dgp problem (constraint_at h) = true →
  Canonicalization_apply problem
    (constraint_at (for_each (_constraints problem) save_and_split h).2)
    {| self := __init__ ∅; fresh_ref := next_ref h |} = (inr (equiv_problem, inverse_data), st) →
  ∃ h', apply problem h = (inl (AttributeError "_old_args"), h').
Proof.
  intros Hdup Hdgp Hengine.
  destruct (save_and_split_loop (_constraints problem) h)
    as (h1 & Hloop & Hn1 & _ & Hin & _).
  rewrite Hloop in Hengine. simpl in Hengine.
  destruct (restore_loop_repeated (_constraints problem) Hdup
              {| constraint_at := constraint_at h1; next_ref := fresh_ref st |})
    as (h2 & Hloop2).
  { intros c Hc. simpl. by destruct (Hin c Hc) as (_ & ? & _). }
  exists h2. by rewrite (apply_accepted _ _ _ Hdgp Hloop), Hn1, Hengine, Hloop2.
Qed.

(** X10: the engine only ever sees the split view: two engines that agree on
    every store in which each constraint of the problem has [lhs, rhs] as
    its argument list and carries [_old_args] give the same [apply] on
    that problem, whatever they do on other stores. *)
Theorem apply_engine_sees_split_view `{Discipline} {G : Type} (E1 E2 : Canonicalization G)
    (problem : Problem) :
  (∀ store st,
     (∀ c, c ∈ _constraints problem →
        args (store c) = [_lhs (store c); _rhs (store c)] ∧ is_Some (_old_args (store c))) →
     @Canonicalization_apply G E1 problem store st =
     @Canonicalization_apply G E2 problem store st) →
  ∀ h, @apply _ G E1 problem h = @apply _ G E2 problem h.
Proof.
  intros Hagree h. destruct (is_dgp problem (constraint_at h)) eqn:Hdgp.
  2:{ by rewrite !apply_rejected. }
  destruct (save_and_split_loop (_constraints problem) h) as (h1 & Hloop & _ & _ & Hin & _).
  rewrite (@apply_accepted _ G E1 _ _ _ Hdgp Hloop).
  rewrite (@apply_accepted _ G E2 _ _ _ Hdgp Hloop).
  rewrite Hagree; [done|].
  intros c Hc. destruct (Hin c Hc) as (-> & Hsome & _ & -> & ->). done.
Qed.

Section invert_more.
Context {ndarray G : Type} `{!Numeric ndarray} `{!Settings}
        `{!Canonicalization_inverse G ndarray}.

(** X13: [apply] and [invert] together: with the inverse data that [apply]
    returned for a problem, [invert] of a solution whose status is in
    [SOLUTION_PRESENT] reports the value of the objective of that
    problem (the one [apply] was called on, not the rewritten one), taken
    where the variables hold the exponentiated primal values. *)
Theorem invert_after_apply_uses_original_objective `{Discipline} `{!Canonicalization G}
    (problem : Problem) (h h' : heap) (equiv_problem : NewProblem)
    (inverse_data : InverseData G) (solution : Solution ndarray) (p : Problem_state ndarray) :
  apply problem h = (inr (equiv_problem, inverse_data), h') →
  status (Canonicalization_invert solution inverse_data) ∈ SOLUTION_PRESENT →
  ∃ result p',
    invert solution inverse_data p = (inr result, p') ∧
    opt_val result =
      Expr_value (objective problem)
        ((np_exp <$> primal_vars (Canonicalization_invert solution inverse_data))
           ∪ variable_values p) ∧
    _solution p' = None.
Proof.
  intros Happly Hpresent.
  assert (_problem inverse_data = problem) as Hproblem.
  { apply apply_inv in Happly.
    destruct (is_dgp problem (constraint_at h)); [|by destruct Happly].
    destruct Happly as (h1 & r & st & _ & _ & Hres).
    destruct r as [e|[equiv_problem' inverse_data']]; [by destruct Hres|].
    destruct Hres as (r2 & _ & Hr). destruct r2 as [e|[]]; [done|].
    by injection Hr as -> ->. }
  eexists _, _. unfold invert. simpl. rewrite decide_True by done.
  split; [reflexivity|]. simpl. by rewrite Hproblem.
Qed.
End invert_more.

(** * One variable object, one log-space variable *)

Lemma flat_map_ext_elem {A B} (f g : A → list B) (l : list A) :
  (∀ x, x ∈ l → f x = g x) → flat_map f l = flat_map g l.
Proof.
  induction l as [|x l IH]; intros Hfg; [done|]. simpl.
  rewrite (Hfg x) by (by left). rewrite IH; [done|]. intros y Hy. apply Hfg. by right.
Qed.

Section one_log_variable.
Context `{Expr_key} `{Canonicalizers}.

Lemma canonicalize_args_all_run (l : list Expr) (st st' : canon_state)
    (r : exn + list Expr * list NewConstraint) :
  canonicalize_args canonicalize_tree l st = (r, st') → rtc run_step st st'.
Proof.
  apply canonicalize_args_run. apply Forall_forall. intros arg _. apply canonicalize_tree_run.
Qed.

(** A variable node is rewritten to what the walk records for it. *)
Lemma canonicalize_tree_records (e v : Expr) (c : list NewConstraint) (st st' : canon_state) :
  expr_type e = Variable_ →
  canonicalize_tree e st = (inr (v, c), st') →
  _variables (self st') !! dict_key e = Some v.
Proof.
  intros He Hwalk. rewrite canonicalize_tree_unfold in Hwalk.
  apply bind_inv in Hwalk as [(e' & _ & [=])|([canon_args constrs] & st1 & Hargs & Hrest)].
  apply bind_inv in Hrest as [(e' & _ & [=])|(method & st2 & Hlook & Hrest)].
  pose proof Hlook as [-> _]%lookup_method_inv.
  apply bind_inv in Hrest as [(e' & _ & [=])|([canon_expr c'] & st3 & Hcall & Hr)].
  injection Hr as <- <- <-.
  unfold lookup_method in Hlook. injection Hlook as Hget.
  rewrite (call_method_Variable (self st1) _ canon_args He method Hget) in Hcall.
  by eapply variable_canon_records.
Qed.

(** In a walk of a list that returned, the walk of every node it reached
    returned, and the walk went on from there to the end. *)
Lemma visits_returned (l : list Expr) (st : canon_state) (e : Expr) (st_e : canon_state) :
  visits l st e st_e →
  ∀ r st', canonicalize_args canonicalize_tree l st = (inr r, st') →
    ∃ v c st_e', canonicalize_tree e st_e = (inr (v, c), st_e') ∧ rtc run_step st_e' st'.
Proof.
  induction 1 as [a l st|a l st e st_e _ IH|a l st r0 st1 e st_e Hwalk _ IH];
    intros r st'; rewrite canonicalize_args_cons;
    intros [(e' & _ & [=])|([canon_arg c] & s1 & Ha & Hrest)]%bind_inv;
    apply bind_inv in Hrest as [(e' & _ & [=])|([canon_args constrs] & s2 & Hl & Hr)];
    injection Hr as _ <-.
  - exists canon_arg, c, s1. split; [done|]. by eapply canonicalize_args_all_run.
  - rewrite canonicalize_tree_unfold in Ha.
    apply bind_inv in Ha as [(e' & _ & [=])|([canon_args' constrs'] & s3 & Hargs & Hrest)].
    apply bind_inv in Hrest as [(e' & _ & [=])|(method & s4 & Hlook & Hrest)].
    apply lookup_method_inv in Hlook as [-> _].
    apply bind_inv in Hrest as [(e' & _ & [=])|([canon_expr c'] & s5 & Hcall & Hr)].
    injection Hr as _ _ <-.
    destruct (IH _ _ Hargs) as (v & c0 & st_e' & Hwalk & Hrun).
    exists v, c0, st_e'. split; [done|].
    etrans; [done|]. etrans; [by eapply call_method_run|].
    by eapply canonicalize_args_all_run.
  - rewrite Hwalk in Ha. injection Ha as _ <-. by eapply IH.
Qed.

Lemma canonicalize_args_app (l1 l2 : list Expr) (st s1 s2 : canon_state)
    (r1 r2 : list Expr * list NewConstraint) :
  canonicalize_args canonicalize_tree l1 st = (inr r1, s1) →
  canonicalize_args canonicalize_tree l2 s1 = (inr r2, s2) →
  ∃ r, canonicalize_args canonicalize_tree (l1 ++ l2) st = (inr r, s2).
Proof.
  revert st r1. induction l1 as [|a l1 IH]; intros st r1.
  { intros [= <- <-] Hl2. by eauto. }
  rewrite canonicalize_args_cons.
  intros [(e' & _ & [=])|([canon_arg c] & s3 & Ha & Hrest)]%bind_inv Hl2.
  apply bind_inv in Hrest as [(e' & _ & [=])|([canon_args constrs] & s4 & Hl1 & Hr)].
  injection Hr as _ <-.
  destruct (IH _ _ Hl1 Hl2) as ([canon_args' constrs'] & Happ).
  eexists. rewrite <-app_comm_cons, canonicalize_args_cons.
  rewrite (bind_inr _ _ _ _ _ Ha). simpl. rewrite (bind_inr _ _ _ _ _ Happ). reflexivity.
Qed.

Lemma canonicalize_constraints_as_args (store : positive → Constraint) (l : list positive)
    (st st' : canon_state) (r : list NewConstraint) :
  canonicalize_constraints store l st = (inr r, st') →
  ∃ r', canonicalize_args canonicalize_tree (flat_map (λ c, args (store c)) l) st
        = (inr r', st').
Proof.
  revert st r. induction l as [|c l IH]; intros st r.
  { intros [= <- <-]. by eexists. }
  rewrite canonicalize_constraints_cons.
  intros [(e' & _ & [=])|([canon_args aux] & s1 & Hc & Hrest)]%bind_inv.
  apply bind_inv in Hrest as [(e' & _ & [=])|(rest & s2 & Hl & Hr)].
  injection Hr as _ <-.
  destruct (IH _ _ Hl) as (r' & Hl'). simpl. by eapply canonicalize_args_app.
Qed.

(** A run of the engine of the spec that returned is a walk of the list
    of the objective and the arguments of the constraints. *)
Lemma Canonicalization_spec_as_args (problem : Problem) (store : positive → Constraint)
    (st st' : canon_state) (res : NewProblem * unit) :
  Canonicalization_spec problem store st = (inr res, st') →
  ∃ r, canonicalize_args canonicalize_tree
         (objective problem :: flat_map (λ c, args (store c)) (_constraints problem)) st
       = (inr r, st').
Proof.
  unfold Canonicalization_spec.
  intros [(e' & _ & [=])|([canon_objective constrs] & s1 & Hobj & Hrest)]%bind_inv.
  apply bind_inv in Hrest as [(e' & _ & [=])|(canon_constraints & s2 & Hl & Hr)].
  injection Hr as _ <-.
  destruct (canonicalize_constraints_as_args _ _ _ _ _ Hl) as ([canon_args constrs'] & Hl').
  eexists. rewrite canonicalize_args_cons.
  rewrite (bind_inr _ _ _ _ _ Hobj). simpl. rewrite (bind_inr _ _ _ _ _ Hl'). reflexivity.
Qed.

(** C2, as amended (the key of the cache is the variable object, not its
    identifier).  For every key function:
    (1) once the variable rule has returned the log-space variable [v] for
    a variable object, every later call of the run for that object returns
    that very object [v] and creates nothing: cache and allocator stay as
    they are;
    (2) consequently, after [apply] (with the engine of the spec) has
    returned, whenever the walk of the problem reached a variable object,
    at any two places, it rewrote it both times to one and the same
    log-space variable, the one that the cache of the inverse data holds
    for it. *)
Theorem same_object_same_log_variable `{Discipline} :
  (∀ (e : Expr) (args1 args2 : list Expr) (st0 st1 st2 : canon_state)
     (v : Expr) (c : list NewConstraint),
     variable_canon e args1 st0 = (inr (v, c), st1) →
     rtc run_step st1 st2 →
     variable_canon e args2 st2 = (inr (v, []), st2)) ∧
  (∀ (problem : Problem) (h h' : heap) (equiv_problem : NewProblem)
     (inverse_data : InverseData unit) (e : Expr) (st_a st_b : canon_state),
     @apply _ unit Canonicalization_spec problem h = (inr (equiv_problem, inverse_data), h') →
     expr_type e = Variable_ →
     visits (walked problem h) {| self := __init__ ∅; fresh_ref := next_ref h |} e st_a →
     visits (walked problem h) {| self := __init__ ∅; fresh_ref := next_ref h |} e st_b →
     ∃ v c_a st_a' c_b st_b',
       canonicalize_tree e st_a = (inr (v, c_a), st_a') ∧
       canonicalize_tree e st_b = (inr (v, c_b), st_b') ∧
       _variables (_canon_methods inverse_data) !! dict_key e = Some v).
Proof.
  split.
  - intros e args1 args2 st0 st1 st2 v c Hcall Hrun. apply variable_canon_hit.
    eapply run_keeps; [done|]. by eapply variable_canon_records.
  - intros problem h h' equiv_problem inverse_data e st_a st_b Happly He Ha Hb.
    apply (apply_inv (Canonicalization0 := Canonicalization_spec)) in Happly.
    destruct (is_dgp problem (constraint_at h)); [|by destruct Happly].
    destruct Happly as (h1 & res & st & Hloop & Hengine & Hres).
    destruct (save_and_split_loop (_constraints problem) h)
      as (h1' & Hloop' & Hn1 & _ & Hin & _).
    rewrite Hloop in Hloop'. injection Hloop' as <-.
    destruct res as [e'|[equiv_problem' generic_record]]; [by destruct Hres|].
    destruct Hres as (r2 & _ & Hr). destruct r2 as [e'|[]]; [done|].
    injection Hr as -> ->. simpl.
    apply Canonicalization_spec_as_args in Hengine as (r & Hwalk).
    assert (flat_map (λ c, args (constraint_at h1 c)) (_constraints problem) =
            flat_map (λ c, [_lhs (constraint_at h c); _rhs (constraint_at h c)])
              (_constraints problem)) as Hroots.
    { apply flat_map_ext_elem. intros c Hc. by destruct (Hin c Hc) as [-> _]. }
    rewrite Hroots, Hn1 in Hwalk. fold (walked problem h) in Hwalk.
    destruct (visits_returned _ _ _ _ Ha _ _ Hwalk) as (v_a & c_a & st_a' & Hwa & Hra).
    destruct (visits_returned _ _ _ _ Hb _ _ Hwalk) as (v_b & c_b & st_b' & Hwb & Hrb).
    pose proof (run_keeps _ _ _ _ Hra (canonicalize_tree_records _ _ _ _ _ He Hwa)) as Hca.
    pose proof (run_keeps _ _ _ _ Hrb (canonicalize_tree_records _ _ _ _ _ He Hwb)) as Hcb.
    rewrite Hca in Hcb. injection Hcb as <-.
    by exists v_a, c_a, st_a', c_b, st_b'.
Qed.
End one_log_variable.

(** * The theorems at the scenario *)

Import Scenario.

(** C2 fails on the code: [x] and [x_again] are two variable objects with
    the identifier 1; with the object as key, the variable rule called on
    [x] and then on [x_again] returns two log-space variables, two objects
    that both carry the identifier 1. *)
Lemma same_identifier_two_log_variables :
  expr_id x = expr_id x_again ∧
  @variable_canon key_by_object x [] fresh_state = (inr (log_x, []), state_x) ∧
  @variable_canon key_by_object x_again [] state_x = (inr (log_x_again, []), state_x_again) ∧
  log_x ≠ log_x_again ∧
  expr_id log_x = expr_id log_x_again ∧
  _variables (self state_x_again) !! 1 = Some log_x ∧
  _variables (self state_x_again) !! 8 = Some log_x_again.
Proof. repeat split; try reflexivity. discriminate. Qed.

Lemma same_object_same_log_variable_witness :
  ∃ v c_a st_a' c_b st_b',
    @canonicalize_tree key_by_object rebuild x fresh_state = (inr (v, c_a), st_a') ∧
    @canonicalize_tree key_by_object rebuild x state_walked = (inr (v, c_b), st_b') ∧
    _variables (_canon_methods some_inverse_data) !! 1 = Some v.
Proof.
  destruct (@same_object_same_log_variable key_by_object rebuild always_dgp) as [_ Hafter].
  assert (∃ equiv_problem h',
            @apply always_dgp unit Canonicalization_by_object problem_xy heap0 =
              (inr (equiv_problem, some_inverse_data), h')) as (equiv_problem & h' & Happly).
  { eexists _, _. vm_compute. reflexivity. }
  apply (Hafter problem_xy heap0 h' equiv_problem some_inverse_data x fresh_state state_walked
           Happly).
  - reflexivity.
  - apply visits_inside. apply visits_head.
  - eapply (visits_tail x_times_y [x; one] fresh_state _ state_walked).
    + vm_compute. reflexivity.
    + apply visits_head.
Defined.

Lemma variable_canon_mints_witness :
  ∃ log_variable st',
    @variable_canon key_by_id x [] fresh_state = (inr (log_variable, []), st') ∧
    expr_id log_variable = 1 ∧
    expr_attributes log_variable = [] ∧
    _variables (self st') !! 1 = Some log_variable.
Proof.
  destruct (@variable_canon_mints key_by_id x [] fresh_state)
    as (log_variable & st' & Hcall & _ & Hid & _ & Hattrs & _ & _ & _ & Hcache & _).
  - reflexivity.
  - exists log_variable, st'. repeat split; [exact Hcall|exact Hid|exact Hattrs|].
    rewrite Hcache. apply lookup_insert_eq.
Defined.

Lemma apply_rejects_before_mutation_witness :
  @apply never_dgp unit Canonicalization_rebuild problem_xy heap0 =
    (inl (ValueError "The supplied problem is not log-log DCP."), heap0).
Proof.
  apply (@apply_rejects_before_mutation never_dgp unit Canonicalization_rebuild
           problem_xy heap0).
  reflexivity.
Defined.

(** C1 fails on the code: the objective [cumsum(x)] makes the engine raise
    [KeyError], [apply] raises it, and the constraint [x <= 1] is left with
    the argument list [[x; 1]] and the attribute [_old_args]. *)
Lemma apply_engine_error_leaves_split :
  (@apply always_dgp unit Canonicalization_rebuild problem_cumsum heap0).1 =
    inl (KeyError (OtherAtom "cumsum")) ∧
  args (constraint_at heap0 10) = [x_minus_one] ∧
  args (constraint_at
          (@apply always_dgp unit Canonicalization_rebuild problem_cumsum heap0).2 10) =
    [x; one] ∧
  _old_args (constraint_at
               (@apply always_dgp unit Canonicalization_rebuild problem_cumsum heap0).2 10) =
    Some [x_minus_one] ∧
  ¬ restored problem_cumsum heap0
      (@apply always_dgp unit Canonicalization_rebuild problem_cumsum heap0).2.
Proof.
  split; [reflexivity|]. split; [reflexivity|]. split; [reflexivity|].
  split; [reflexivity|].
  intros Hrestored. destruct (Hrestored 10%positive) as [Hargs _]; [by left|].
  discriminate Hargs.
Qed.

Lemma apply_restores_on_return_witness :
  restored problem_xy heap0
    (@apply always_dgp unit Canonicalization_rebuild problem_xy heap0).2.
Proof.
  destruct (@apply_restores_on_return always_dgp unit Canonicalization_rebuild problem_xy heap0
              (@apply always_dgp unit Canonicalization_rebuild problem_xy heap0).2
              (@apply always_dgp unit Canonicalization_rebuild problem_xy heap0).1)
    as (_ & Hreturn & _).
  - apply NoDup_singleton.
  - by destruct (@apply always_dgp unit Canonicalization_rebuild problem_xy heap0).
  - eapply Hreturn. reflexivity.
Defined.

Lemma unsupported_kind_fails_witness :
  ∃ e h', @apply always_dgp unit Canonicalization_rebuild problem_cumsum heap0 = (inl e, h').
Proof.
  destruct (@unsupported_kind_fails key_by_id rebuild always_dgp (OtherAtom "cumsum"))
    as (_ & _ & _ & Hproblem).
  - reflexivity.
  - destruct (Hproblem problem_cumsum heap0) as (e & h' & Happly & _).
    + left. by apply occurs_here.
    + by exists e, h'.
Defined.

Lemma apply_uses_fresh_instance_witness :
  @apply always_dgp unit Canonicalization_rebuild problem_xy heap0 =
  @apply always_dgp unit Canonicalization_picky problem_xy heap0.
Proof.
  apply (@apply_uses_fresh_instance key_by_id always_dgp unit
           Canonicalization_rebuild Canonicalization_picky).
  intros problem store n. reflexivity.
Defined.

Lemma invert_inf_or_unb_witness :
  ∃ result,
    @invert Z numeric_Z settings unit inverse_id (solved "infeasible") some_inverse_data
      no_solution = (inr result, no_solution) ∧
    opt_val result = 8%Z.
Proof.
  destruct (@invert_inf_or_unb Z unit numeric_Z settings inverse_id (solved "infeasible")
              some_inverse_data no_solution) as (result & Hinvert & Hopt & _).
  - compute_done.
  - compute_done.
  - exists result. split; [exact Hinvert|exact Hopt].
Defined.

Lemma invert_other_status_witness :
  ∃ result,
    @invert Z numeric_Z settings unit inverse_id (solved "solver_error") some_inverse_data
      no_solution = (inr result, no_solution) ∧
    opt_val result = 3%Z ∧ primal_vars result !! 2 = Some 32%Z.
Proof.
  destruct (@invert_other_status Z unit numeric_Z settings inverse_id (solved "solver_error")
              some_inverse_data no_solution) as (result & Hinvert & Hopt & _ & _ & Hprimal).
  - compute_done.
  - compute_done.
  - exists result. split; [exact Hinvert|]. split; [exact Hopt|]. rewrite Hprimal. reflexivity.
Defined.


Lemma apply_constraint_listed_twice_witness :
  ∃ h', @apply always_dgp unit Canonicalization_rebuild problem_twice heap0 =
          (inl (AttributeError "_old_args"), h') ∧
        args (constraint_at h' 10) = [x; one].
Proof.
  edestruct (@apply_constraint_listed_twice always_dgp unit Canonicalization_rebuild
               problem_twice heap0 10%positive) as (h' & Happly & Hargs & _).
  - reflexivity.
  - reflexivity.
  - vm_compute. reflexivity.
  - by exists h'.
Defined.

Lemma walk_shares_log_variable_witness :
  ∃ v, _variables (self state_walked) !! 1 = Some v ∧
       @variable_canon key_by_id x [] state_walked = (inr (v, []), state_walked).
Proof.
  destruct (@walk_shares_log_variable key_by_id rebuild x_times_y x x fresh_state state_walked
              (mkExpr 102 multiply 4 [] [] [log_x; log_y], []))
    as (v & Hv & _ & Hlater).
  - reflexivity.
  - eapply subexpr_arg; [|apply subexpr_refl]. by left.
  - eapply subexpr_arg; [|apply subexpr_refl]. by left.
  - reflexivity.
  - reflexivity.
  - reflexivity.
  - exists v. split; [exact Hv|].
    destruct (Hlater state_walked [] [] (rtc_refl _ _)) as [Hx _]. exact Hx.
Defined.

Lemma cache_never_merges_variables_witness :
  (100 ≤ expr_ref log_y < fresh_ref state_xy)%positive ∧ expr_type log_y = Variable_ ∧
  expr_attributes log_y = [] ∧ expr_args log_y = [].
Proof.
  destruct (@cache_never_merges_variables key_by_id ∅ 100 state_xy) as (Hok & _ & _).
  - eapply rtc_l; [apply (@forward_variable_canon key_by_id x [] fresh_state
                            (inr (log_x, [])) state_x); reflexivity|].
    apply rtc_once.
    apply (@forward_variable_canon key_by_id y [] state_x (inr (log_y, [])) state_xy).
    reflexivity.
  - apply (Hok 2). reflexivity.
Defined.


Lemma apply_returns_engine_result_witness :
  ∃ equiv_problem h',
    @apply always_dgp unit Canonicalization_rebuild problem_xy heap0 =
      (inr (equiv_problem, some_inverse_data), h') ∧
    restored problem_xy heap0 h'.
Proof.
  destruct (@apply_returns_engine_result always_dgp unit Canonicalization_rebuild
              problem_xy heap0) as [_ Hreturns].
  - apply NoDup_singleton.
  - edestruct Hreturns as (h' & Happly & _ & Hrestored).
    + reflexivity.
    + vm_compute. reflexivity.
    + eexists _, h'. split; [exact Happly|exact Hrestored].
Defined.

Lemma apply_after_failed_apply_witness :
  args (constraint_at
          (@apply always_dgp unit Canonicalization_flaky problem_xy
             (@apply always_dgp unit Canonicalization_flaky problem_xy heap0).2).2 10) =
    [x; one] ∧
  args (constraint_at heap0 10) = [x_minus_one].
Proof.
  split; [|reflexivity].
  edestruct (@apply_after_failed_apply always_dgp unit Canonicalization_flaky
               Canonicalization_flaky problem_xy heap0
               (@apply always_dgp unit Canonicalization_flaky problem_xy heap0).2
               (@apply always_dgp unit Canonicalization_flaky problem_xy
                  (@apply always_dgp unit Canonicalization_flaky problem_xy heap0).2).2
               (OtherError "first call"))
    as [Hargs _].
  - apply NoDup_singleton.
  - reflexivity.
  - vm_compute. reflexivity.
  - vm_compute. reflexivity.
  - by left.
  - exact Hargs.
Defined.

Lemma apply_engine_sees_split_view_witness :
  @apply always_dgp unit Canonicalization_rebuild problem_xy heap0 =
  @apply always_dgp unit Canonicalization_strict problem_xy heap0.
Proof.
  apply (@apply_engine_sees_split_view always_dgp unit Canonicalization_rebuild
           Canonicalization_strict problem_xy).
  intros store st Hsplit. destruct (Hsplit 10%positive) as [Hargs _]; [by left|].
  unfold Canonicalization_apply, Canonicalization_strict. simpl. rewrite Hargs. reflexivity.
Defined.

Lemma invert_after_apply_uses_original_objective_witness :
  ∃ result p',
    @invert Z numeric_Z settings unit inverse_id (solved "optimal") some_inverse_data
      no_solution = (inr result, p') ∧
    opt_val result = 1%Z.
Proof.
  assert (∃ equiv_problem h',
            @apply always_dgp unit Canonicalization_rebuild problem_xy heap0 =
              (inr (equiv_problem, some_inverse_data), h')) as (equiv_problem & h' & Happly).
  { eexists _, _. vm_compute. reflexivity. }
  destruct (@invert_after_apply_uses_original_objective Z unit numeric_Z settings inverse_id
              always_dgp Canonicalization_rebuild problem_xy heap0 h' equiv_problem
              some_inverse_data (solved "optimal") no_solution Happly)
    as (result & p' & Hinvert & Hopt & _).
  - compute_done.
  - exists result, p'. split; [exact Hinvert|]. rewrite Hopt. reflexivity.
Defined.

Lemma apply_repeated_constraint_raises_witness :
  ∃ h', @apply always_dgp unit Canonicalization_rebuild problem_twice heap0 =
          (inl (AttributeError "_old_args"), h').
Proof.
  eapply (@apply_repeated_constraint_raises always_dgp unit Canonicalization_rebuild
            problem_twice heap0).
  - intros Hnd. apply list.NoDup_cons in Hnd as [Hin _]. apply Hin. by left.
  - reflexivity.
  - vm_compute. reflexivity.
Defined.
